(** * Python_Chess.py: material evaluator, alpha-beta search, best-move selector

    A shallow embedding of [evaluate_board], [minimax] and [get_best_move]
    of [Python_Chess.py].  The board belongs to the [chess] library: it is
    one mutable object that the search changes with [board.push] and
    restores with [board.pop].  The library is taken as an interface
    ([Engine]); the three functions are written in a small monad that threads
    the board, records the calls made on it and can run out of fuel. *)

From Stdlib Require Import ZArith List Bool Lia Morphisms RelationClasses OrdersTac.
From Stdlib Require String Ascii.
Import ListNotations.
Local Open Scope Z_scope.

(** ** Data *)

(** [chess.PAWN] .. [chess.KING]. *)
Inductive PieceType := PAWN | KNIGHT | BISHOP | ROOK | QUEEN | KING.

(** [chess.WHITE] is [True] and [chess.BLACK] is [False]; [board.turn] is a
    colour. *)
Definition Color := bool.
Definition WHITE : Color := true.
Definition BLACK : Color := false.

Definition Square := nat.

(** What the program asks of the [chess] library. [pieces] stands for
    [board.pieces(piece_type, color)], the set of squares, of which the
    program only takes [len]; [legal_moves] for the sequence that
    [for move in board.legal_moves] walks through, taken from the board as
    it is when the loop starts. *)
Class Engine := {
  Board : Type;
  Move : Type;
  legal_moves : Board -> list Move;
  push : Board -> Move -> Board;
  pop : Board -> Board;
  is_game_over : Board -> bool;
  turn : Board -> Color;
  pieces : Board -> PieceType -> Color -> list Square
}.

(** The contract of the library that the search relies on. *)
Definition pop_undoes_push (E : Engine) : Prop :=
  forall (b : Board) (m : Move), pop (push b m) = b.

Definition push_passes_turn (E : Engine) : Prop :=
  forall (b : Board) (m : Move), turn (push b m) = negb (turn b).

Definition no_moves_is_game_over (E : Engine) : Prop :=
  forall b : Board, legal_moves b = [] -> is_game_over b = true.

(** Scores: the integers of [evaluate_board] together with [float('-inf')]
    and [float('inf')]. *)
Inductive Score := NegInf | Fin (z : Z) | PosInf.

(** [a < b] and [a <= b] as Python compares an int with an infinity. *)
Definition slt (a b : Score) : bool :=
  match a, b with
  | NegInf, NegInf => false
  | NegInf, _ => true
  | Fin _, NegInf => false
  | Fin x, Fin y => x <? y
  | Fin _, PosInf => true
  | PosInf, _ => false
  end.

Definition sle (a b : Score) : bool := negb (slt b a).

(** [max(a, b)] gives [b] only when [b > a]; [min(a, b)] gives [b] only when
    [b < a]. *)
Definition smax (a b : Score) : Score := if slt a b then b else a.
Definition smin (a b : Score) : Score := if slt b a then b else a.

Definition is_finite (s : Score) : bool :=
  match s with Fin _ => true | _ => false end.

(** Calls on the board that generate moves or change the position. *)
Inductive Event {E : Engine} :=
| EvLegalMoves
| EvPush (m : Move)
| EvPop.

Definition is_push {E : Engine} (e : Event) : bool :=
  match e with EvPush _ => true | _ => false end.
Definition is_pop {E : Engine} (e : Event) : bool :=
  match e with EvPop => true | _ => false end.

Definition pushes {E : Engine} (t : list Event) : nat := length (filter is_push t).
Definition pops {E : Engine} (t : list Event) : nat := length (filter is_pop t).

(** ** The monad

    A computation starts from the board, and either runs out of fuel
    ([None]) or returns a value, the board it leaves and the calls it
    made. *)
Definition M {E : Engine} (A : Type) : Type :=
  Board -> option (A * Board * list Event).

Definition ret {E : Engine} {A} (a : A) : M A := fun b => Some (a, b, []).

Definition bind {E : Engine} {A B} (c : M A) (k : A -> M B) : M B :=
  fun b =>
    match c b with
    | None => None
    | Some (a, b1, t1) =>
        match k a b1 with
        | None => None
        | Some (r, b2, t2) => Some (r, b2, t1 ++ t2)
        end
    end.

Definition out_of_fuel {E : Engine} {A} : M A := fun _ => None.

Declare Scope search_scope.
Delimit Scope search_scope with search.
Notation "x <- c ;; k" := (bind c (fun x => k))
  (at level 61, c at next level, right associativity) : search_scope.
Notation "c ;; k" := (bind c (fun _ => k))
  (at level 61, right associativity) : search_scope.
Local Open Scope search_scope.

(** The board operations. *)
Definition board_pieces {E : Engine} (p : PieceType) (c : Color) : M (list Square) :=
  fun b => Some (pieces b p c, b, []).
Definition board_turn {E : Engine} : M Color :=
  fun b => Some (turn b, b, []).
Definition board_is_game_over {E : Engine} : M bool :=
  fun b => Some (is_game_over b, b, []).
Definition board_legal_moves {E : Engine} : M (list Move) :=
  fun b => Some (legal_moves b, b, [EvLegalMoves]).
Definition board_push {E : Engine} (m : Move) : M unit :=
  fun b => Some (tt, push b m, [EvPush m]).
Definition board_pop {E : Engine} : M unit :=
  fun b => Some (tt, pop b, [EvPop]).

(** ** evaluate_board *)

Definition PieceType_eqb (p q : PieceType) : bool :=
  match p, q with
  | PAWN, PAWN | KNIGHT, KNIGHT | BISHOP, BISHOP
  | ROOK, ROOK | QUEEN, QUEEN | KING, KING => true
  | _, _ => false
  end.

(** The dict [piece_values], in insertion order. *)
Definition piece_values : list (PieceType * Z) :=
  [(PAWN, 1); (KNIGHT, 3); (BISHOP, 3); (ROOK, 5); (QUEEN, 9); (KING, 0)].

(** [for piece in piece_values] walks through the keys. *)
Definition keys (d : list (PieceType * Z)) : list PieceType := map fst d.

(** [piece_values[piece]]; the keys looked up come from the dict itself, so
    the lookup never misses. *)
Definition getitem (d : list (PieceType * Z)) (p : PieceType) : Z :=
  match find (fun kv => PieceType_eqb p (fst kv)) d with
  | Some kv => snd kv
  | None => 0
  end.

Fixpoint evaluate_loop {E : Engine} (ps : list PieceType) (score : Z) : M Z :=
  match ps with
  | [] => ret score
  | piece :: rest =>
      w <- board_pieces piece WHITE ;;
      let score := score + Z.of_nat (length w) * getitem piece_values piece in
      k <- board_pieces piece BLACK ;;
      let score := score - Z.of_nat (length k) * getitem piece_values piece in
      evaluate_loop rest score
  end.

Definition evaluate_board {E : Engine} : M Z :=
  evaluate_loop (keys piece_values) 0.

(** The material balance as the specification words it: over the six
    kinds, the count for White minus the count for Black, times the value
    of the kind. *)
Definition count_of_kind {E : Engine} (b : Board) (p : PieceType) (c : Color) : Z :=
  Z.of_nat (length (pieces b p c)).

Definition point_value (p : PieceType) : Z :=
  match p with
  | PAWN => 1 | KNIGHT => 3 | BISHOP => 3 | ROOK => 5 | QUEEN => 9 | KING => 0
  end.

Definition material_balance {E : Engine} (b : Board) : Z :=
  fold_right Z.add 0
    (map (fun p => (count_of_kind b p WHITE - count_of_kind b p BLACK) * point_value p)
         [PAWN; KNIGHT; BISHOP; ROOK; QUEEN; KING]).

(** ** minimax *)

(** The loop of the maximizing branch; [self] is the recursive call
    [minimax(board, depth - 1, alpha, beta, False)]. *)
Fixpoint max_loop {E : Engine} (self : Score -> Score -> bool -> M Score)
    (moves : list Move) (max_eval alpha beta : Score) : M Score :=
  match moves with
  | [] => ret max_eval
  | move :: rest =>
      board_push move ;;
      eval <- self alpha beta false ;;
      board_pop ;;
      let max_eval := smax max_eval eval in
      let alpha := smax alpha eval in
      if sle beta alpha then ret max_eval
      else max_loop self rest max_eval alpha beta
  end.

(** The loop of the minimizing branch. *)
Fixpoint min_loop {E : Engine} (self : Score -> Score -> bool -> M Score)
    (moves : list Move) (min_eval alpha beta : Score) : M Score :=
  match moves with
  | [] => ret min_eval
  | move :: rest =>
      board_push move ;;
      eval <- self alpha beta true ;;
      board_pop ;;
      let min_eval := smin min_eval eval in
      let beta := smin beta eval in
      if sle beta alpha then ret min_eval
      else min_loop self rest min_eval alpha beta
  end.

(** [depth] is a Python int, so the recursion is on fuel; [depth == 0 or
    board.is_game_over()] asks the board only when the depth is not 0. *)
Fixpoint minimax {E : Engine} (fuel : nat) (depth : Z) (alpha beta : Score)
    (maximizing_player : bool) : M Score :=
  match fuel with
  | O => out_of_fuel
  | S fuel' =>
      stop <- (if depth =? 0 then ret true else board_is_game_over) ;;
      if stop then
        score <- evaluate_board ;; ret (Fin score)
      else if maximizing_player then
        moves <- board_legal_moves ;;
        max_loop (minimax fuel' (depth - 1)) moves NegInf alpha beta
      else
        moves <- board_legal_moves ;;
        min_loop (minimax fuel' (depth - 1)) moves PosInf alpha beta
  end.

(** ** get_best_move *)

Fixpoint best_move_loop {E : Engine} (fuel : nat) (depth : Z) (moves : list Move)
    (best_move : option Move) (best_value : Score) : M (option Move) :=
  match moves with
  | [] => ret best_move
  | move :: rest =>
      board_push move ;;
      t <- board_turn ;;
      board_value <- minimax fuel (depth - 1) NegInf PosInf (negb t) ;;
      board_pop ;;
      t1 <- board_turn ;;
      if t1 && slt best_value board_value then
        best_move_loop fuel depth rest (Some move) board_value
      else
        t2 <- board_turn ;;
        if negb t2 && slt board_value best_value then
          best_move_loop fuel depth rest (Some move) board_value
        else
          best_move_loop fuel depth rest best_move best_value
  end.

Definition get_best_move {E : Engine} (fuel : nat) (depth : Z) : M (option Move) :=
  t <- board_turn ;;
  let best_value := if t then NegInf else PosInf in
  moves <- board_legal_moves ;;
  best_move_loop fuel depth moves None best_value.

(** ** The search as a function of the position

    On an engine whose [pop] undoes [push] every call leaves the board as it
    found it, so the score is a function of the position alone.  These are
    the values the lemmas [minimax_run] and [get_best_move_run] below show
    the code to return. *)

Definition evaluate_value {E : Engine} (b : Board) : Z :=
  fold_left
    (fun score piece =>
       score + Z.of_nat (length (pieces b piece WHITE)) * getitem piece_values piece
             - Z.of_nat (length (pieces b piece BLACK)) * getitem piece_values piece)
    (keys piece_values) 0.

Fixpoint max_value {E : Engine} (self : Board -> Score -> Score -> Score)
    (b : Board) (moves : list Move) (max_eval alpha beta : Score) : Score :=
  match moves with
  | [] => max_eval
  | move :: rest =>
      let eval := self (push b move) alpha beta in
      let max_eval := smax max_eval eval in
      let alpha := smax alpha eval in
      if sle beta alpha then max_eval else max_value self b rest max_eval alpha beta
  end.

Fixpoint min_value {E : Engine} (self : Board -> Score -> Score -> Score)
    (b : Board) (moves : list Move) (min_eval alpha beta : Score) : Score :=
  match moves with
  | [] => min_eval
  | move :: rest =>
      let eval := self (push b move) alpha beta in
      let min_eval := smin min_eval eval in
      let beta := smin beta eval in
      if sle beta alpha then min_eval else min_value self b rest min_eval alpha beta
  end.

Fixpoint minimax_value {E : Engine} (d : nat) (b : Board) (alpha beta : Score)
    (maximizing_player : bool) : Score :=
  match d with
  | O => Fin (evaluate_value b)
  | S d' =>
      if is_game_over b then Fin (evaluate_value b)
      else if maximizing_player then
        max_value (fun c a k => minimax_value d' c a k false) b (legal_moves b)
          NegInf alpha beta
      else
        min_value (fun c a k => minimax_value d' c a k true) b (legal_moves b)
          PosInf alpha beta
  end.

(** The score [get_best_move] compares for a root move: [minimax] on the
    position after the move, at [depth - 1], with the full window and with
    the flag [not board.turn] read after the push. *)
Definition root_value {E : Engine} (depth : Z) (b : Board) (move : Move) : Score :=
  minimax_value (Z.to_nat (depth - 1)) (push b move) NegInf PosInf
    (negb (turn (push b move))).

Fixpoint best_move_value {E : Engine} (value : Move -> Score) (white : bool)
    (moves : list Move) (best_move : option Move) (best_value : Score) : option Move :=
  match moves with
  | [] => best_move
  | move :: rest =>
      let board_value := value move in
      if white && slt best_value board_value then
        best_move_value value white rest (Some move) board_value
      else if negb white && slt board_value best_value then
        best_move_value value white rest (Some move) board_value
      else best_move_value value white rest best_move best_value
  end.

(** What the code computes for a root move, read off a run of [minimax]
    itself. *)
Definition root_score {E : Engine} (fuel : nat) (depth : Z) (b : Board) (move : Move)
  : option Score :=
  match minimax fuel (depth - 1) NegInf PosInf (negb (turn (push b move))) (push b move) with
  | Some (v, _, _) => Some v
  | None => None
  end.

(** ** Plain minimax

    The search without pruning, as the specification words it: the same
    base case, the maximum (minimum) of the children's values from the
    sentinel, every child visited. *)
Fixpoint plain_minimax {E : Engine} (d : nat) (b : Board) (maximizing : bool) : Score :=
  match d with
  | O => Fin (material_balance b)
  | S d' =>
      if is_game_over b then Fin (material_balance b)
      else if maximizing then
        fold_left smax
          (map (fun m => plain_minimax d' (push b m) false) (legal_moves b)) NegInf
      else
        fold_left smin
          (map (fun m => plain_minimax d' (push b m) true) (legal_moves b)) PosInf
  end.

(** ** A small engine to run the code on

    A game given as a finite tree: a node holds the placement of the
    pieces, whether the game is flagged over, and one subtree per legal
    move; a move is the index of a subtree.  The board keeps the stack of
    the positions it came through, as the library does. *)
Inductive GameTree :=
| Node (placement : PieceType -> Color -> list Square) (over : bool)
       (kids : list GameTree).

Definition placement_of (g : GameTree) := match g with Node p _ _ => p end.
Definition over_of (g : GameTree) := match g with Node _ o _ => o end.
Definition kids_of (g : GameTree) := match g with Node _ _ k => k end.

Record ToyBoard := {
  here : GameTree;
  side : Color;
  undo : list (GameTree * Color)
}.

Definition toy_push (b : ToyBoard) (m : nat) : ToyBoard :=
  {| here := nth m (kids_of (here b)) (here b);
     side := negb (side b);
     undo := (here b, side b) :: undo b |}.

Definition toy_pop (b : ToyBoard) : ToyBoard :=
  match undo b with
  | [] => b
  | (g, s) :: u => {| here := g; side := s; undo := u |}
  end.

(** With [strict], a position without legal moves is game-over, as in the
    library; without it only the flag of the node counts. *)
Definition toy (strict : bool) : Engine := {|
  Board := ToyBoard;
  Move := nat;
  legal_moves := fun b => seq 0 (length (kids_of (here b)));
  push := toy_push;
  pop := toy_pop;
  is_game_over := fun b =>
    over_of (here b) || (strict && (length (kids_of (here b)) =? 0)%nat);
  turn := side;
  pieces := fun b => placement_of (here b)
|}.

(** [material wq wp bq bp]: both kings, and the given numbers of queens and
    pawns. *)
Definition material (wq wp bq bp : nat) : PieceType -> Color -> list Square :=
  fun p c =>
    match p, c with
    | KING, _ => [0%nat]
    | QUEEN, true => seq 0 wq
    | QUEEN, false => seq 0 bq
    | PAWN, true => seq 0 wp
    | PAWN, false => seq 0 bp
    | _, _ => []
    end.

Definition leaf (wq wp bq bp : nat) : GameTree := Node (material wq wp bq bp) false [].

(** White to move.  Move 0 leaves the queen where Black can take it (reply 0)
    or not (reply 1); move 1 loses a pawn whatever Black replies. *)
Definition hanging_queen : GameTree :=
  Node (material 1 1 1 1) false
    [ Node (material 1 1 1 1) false [leaf 0 1 1 1; leaf 1 1 1 1];
      Node (material 1 1 1 1) false [leaf 1 0 1 1; leaf 1 0 1 1] ].

Definition at_root (g : GameTree) (c : Color) : ToyBoard :=
  {| here := g; side := c; undo := [] |}.

(** A position without legal moves that is not flagged game-over. *)
Definition stuck : GameTree := Node (material 1 1 1 1) false [].

(** An engine whose game never ends: one legal move everywhere, never
    game-over. *)
Definition endless : Engine := {|
  Board := unit;
  Move := unit;
  legal_moves := fun _ => [tt];
  push := fun b _ => b;
  pop := fun b => b;
  is_game_over := fun _ => false;
  turn := fun _ => true;
  pieces := fun _ _ _ => []
|}.

(** [better white x y]: the score [x] is a strict improvement on [y] for the
    side to move, greater for White (maximizing), less for Black. *)
Definition better (white : bool) (x y : Score) : bool :=
  if white then slt y x else slt x y.

(** The sentinel a running best starts from. *)
Definition sentinel (white : bool) : Score := if white then NegInf else PosInf.

(** The score of a run, without the board and the calls. *)
Definition score_of {E : Engine} {A} (res : option (A * Board * list Event)) : option A :=
  match res with
  | Some (v, _, _) => Some v
  | None => None
  end.

(** How the score [r] of a search with window ([alpha], [beta]) stands to
    the plain value [v]: at or below [alpha] it is an upper bound of [v], at
    or above [beta] a lower bound, and strictly inside the window it is
    [v]. *)
Definition agrees (alpha beta r v : Score) : Prop :=
  (sle r alpha = true -> sle v r = true) /\
  (sle beta r = true -> sle r v = true) /\
  (slt alpha r = true -> slt r beta = true -> v = r).

(** A computation that leaves the board as it found it and made as many
    pushes as pops. *)
Definition restores {E : Engine} {A} (c : M A) : Prop :=
  forall b r b' t, c b = Some (r, b', t) -> b' = b /\ pushes t = pops t.

(** A computation that returns from every board. *)
Definition total {E : Engine} {A} (c : M A) : Prop :=
  forall b, exists res, c b = Some res.

(** The order on scores, as relations. *)
Module ScoreOrder.
Definition t := Score.
Definition eq := @Logic.eq Score.
Definition lt (a b : Score) : Prop := slt a b = true.
Definition le (a b : Score) : Prop := sle a b = true.
End ScoreOrder.

(** ** ChessGUI: on_click and play_ai_turn

    The object keeps the board and the selected square.  What the two
    methods ask of the [chess] library beyond the search is taken as a second
    interface; rendering ([update_board]), the dialog ([show_game_over]) and
    [print] are recorded as events. *)

(** [chess.square(file, rank)], [chess.square_name(square)] (a lookup in a
    list, which raises [IndexError] outside it: [None]),
    [board.piece_at(square)] (a kind and a colour, or [None]),
    [chess.Move(from_square, to_square)], [move in board.legal_moves] and the
    truth value of a move. *)
Class Gui {E : Engine} := {
  square : Z -> Z -> Z;
  square_name : Z -> option String.string;
  piece_at : Board -> Z -> option (PieceType * Color);
  move_from_to : Z -> Z -> Move;
  contains : Board -> Move -> bool;
  move_bool : Move -> bool
}.

(** A legal move is true as a condition (it is not the null move). *)
Definition legal_moves_are_true {E : Engine} (U : Gui) : Prop :=
  forall b m, In m (legal_moves b) -> move_bool m = true.

Record GuiState {E : Engine} := {
  gui_board : Board;
  selected_square : option Z
}.

Inductive Message :=
| ClickedOn (name : String.string)
| SelectedSquare (name : String.string)
| InvalidMove.

Inductive GuiEvent {E : Engine} :=
| OnBoard (e : Event)
| Printed (msg : Message)
| UpdateBoard (shown : Board)
| ShowGameOver.

(** A method returns a value, or the search in it runs out of fuel, or it
    raises; in each case but the second with the state of the object and the
    events so far. *)
Inductive Outcome {E : Engine} (A : Type) :=
| Returned (a : A) (s : GuiState) (t : list GuiEvent)
| OutOfFuel
| Raised (s : GuiState) (t : list GuiEvent).

Arguments Returned {E A} a s t.
Arguments OutOfFuel {E A}.
Arguments Raised {E A} s t.

Definition G {E : Engine} (A : Type) : Type := GuiState -> Outcome A.

Definition gret {E : Engine} {A} (a : A) : G A := fun s => Returned a s [].

Definition gbind {E : Engine} {A B} (c : G A) (k : A -> G B) : G B :=
  fun s =>
    match c s with
    | Returned a s1 t1 =>
        match k a s1 with
        | Returned r s2 t2 => Returned r s2 (t1 ++ t2)
        | OutOfFuel => OutOfFuel
        | Raised s2 t2 => Raised s2 (t1 ++ t2)
        end
    | OutOfFuel => OutOfFuel
    | Raised s1 t1 => Raised s1 t1
    end.

Declare Scope gui_scope.
Delimit Scope gui_scope with gui.
Notation "x <- c ;; k" := (gbind c (fun x => k))
  (at level 61, c at next level, right associativity) : gui_scope.
Notation "c ;; k" := (gbind c (fun _ => k))
  (at level 61, right associativity) : gui_scope.

(** A computation on the board, run on [self.board]. *)
Definition on_board {E : Engine} {A} (c : M A) : G A :=
  fun s =>
    match c (gui_board s) with
    | None => OutOfFuel
    | Some (a, b, t) =>
        Returned a {| gui_board := b; selected_square := selected_square s |}
          (map OnBoard t)
    end.

Definition get_selected_square {E : Engine} : G (option Z) :=
  fun s => Returned (selected_square s) s [].

Definition set_selected_square {E : Engine} (sq : option Z) : G unit :=
  fun s => Returned tt {| gui_board := gui_board s; selected_square := sq |} [].

Definition gui_piece_at {E : Engine} {U : Gui} (sq : Z) : G (option (PieceType * Color)) :=
  fun s => Returned (piece_at (gui_board s) sq) s [].

Definition gui_contains {E : Engine} {U : Gui} (m : Move) : G bool :=
  fun s => Returned (contains (gui_board s) m) s [].

Definition print {E : Engine} (msg : Message) : G unit :=
  fun s => Returned tt s [Printed msg].

(** [print(f"...{chess.square_name(square)}")]: the name is looked up before
    anything is printed. *)
Definition print_square {E : Engine} {U : Gui} (msg : String.string -> Message)
    (sq : Z) : G unit :=
  fun s =>
    match square_name sq with
    | Some name => Returned tt s [Printed (msg name)]
    | None => Raised s []
    end.

Definition update_board {E : Engine} : G unit :=
  fun s => Returned tt s [UpdateBoard (gui_board s)].

Definition show_game_over {E : Engine} : G unit :=
  fun s => Returned tt s [ShowGameOver].

(** [if move:] is false for [None] and for a move that is false. *)
Definition play_ai_turn {E : Engine} {U : Gui} (fuel : nat) : G unit :=
  (over <- on_board board_is_game_over ;;
   if negb over then
     move <- on_board (get_best_move fuel 3) ;;
     match move with
     | Some m => if move_bool m then on_board (board_push m) else gret tt
     | None => gret tt
     end ;;
     update_board
   else show_game_over)%gui.

(** The file and the rank of the pixel clicked. *)
Definition square_size : Z := 400 / 8.
Definition click_col (x : Z) : Z := x / square_size.
Definition click_row (y : Z) : Z := 7 - y / square_size.

(** [event.x] and [event.y] are the coordinates of the click.  The square
    is asked for its piece twice, by [piece_at(...) and piece_at(...).color
    == chess.WHITE]; both calls read the same board. *)
Definition on_click {E : Engine} {U : Gui} (fuel : nat) (x y : Z) : G unit :=
  (let col := click_col x in
   let row := click_row y in
   let clicked_square := square col row in
   print_square ClickedOn clicked_square ;;
   selected <- get_selected_square ;;
   match selected with
   | None =>
       piece <- gui_piece_at clicked_square ;;
       match piece with
       | Some (_, color) =>
           if Bool.eqb color WHITE then
             set_selected_square (Some clicked_square) ;;
             print_square SelectedSquare clicked_square ;;
             update_board
           else gret tt
       | None => gret tt
       end
   | Some from_square =>
       let move := move_from_to from_square clicked_square in
       legal <- gui_contains move ;;
       if legal then
         on_board (board_push move) ;;
         set_selected_square None ;;
         update_board ;;
         play_ai_turn fuel
       else
         print InvalidMove ;;
         set_selected_square None ;;
         update_board
   end)%gui.

(** The board of the last [update_board] among the events, [shown] when
    there is none: what the canvas shows. *)
Fixpoint canvas {E : Engine} (shown : Board) (t : list GuiEvent) : Board :=
  match t with
  | [] => shown
  | UpdateBoard b :: rest => canvas b rest
  | _ :: rest => canvas shown rest
  end.

(** The small engine with squares: a piece stands on a square when the
    placement of its kind and colour lists the square; a move from one square
    to another is the number [8 * from + to]; the names are a1 .. h8, found
    by index as in a Python list of 64. *)
Definition toy_piece_at (b : ToyBoard) (sq : Z) : option (PieceType * Color) :=
  find (fun pc => existsb (Nat.eqb (Z.to_nat sq)) (placement_of (here b) (fst pc) (snd pc)))
    [(QUEEN, WHITE); (PAWN, WHITE); (KING, WHITE);
     (QUEEN, BLACK); (PAWN, BLACK); (KING, BLACK)].

Definition toy_square_name (sq : Z) : option String.string :=
  let i := if sq <? 0 then sq + 64 else sq in
  if (0 <=? i) && (i <? 64) then
    Some (String.String (Ascii.ascii_of_nat (97 + Z.to_nat (i mod 8)))
            (String.String (Ascii.ascii_of_nat (49 + Z.to_nat (i / 8)))
               String.EmptyString))
  else None.

Definition toy_gui (strict : bool) : @Gui (toy strict) :=
  @Build_Gui (toy strict)
    (fun file rank => rank * 8 + file)
    toy_square_name
    toy_piece_at
    (fun from to => Z.to_nat (8 * from + to))
    (fun (b : ToyBoard) (m : nat) => (m <? length (kids_of (here b)))%nat)
    (fun _ => true).

(** ** Measures used in the properties of the search *)

(** The number of pieces of a colour on the board, over the six kinds. *)
Definition men {E : Engine} (b : Board) (c : Color) : Z :=
  fold_right Z.add 0
    (map (fun p => count_of_kind b p c) [PAWN; KNIGHT; BISHOP; ROOK; QUEEN; KING]).

(** The position after a sequence of moves, and whether each move of the
    sequence is legal where it is made. *)
Definition after_path {E : Engine} (b : Board) (path : list Move) : Board :=
  fold_left push path b.

Fixpoint legal_path {E : Engine} (b : Board) (path : list Move) : Prop :=
  match path with
  | [] => True
  | m :: rest => is_game_over b = false /\ In m (legal_moves b) /\ legal_path (push b m) rest
  end.

(** The number of positions below the root of a tree of depth [d] in which
    every position has [k] moves: k + k^2 + ... + k^d. *)
Fixpoint tree_size (k d : nat) : nat :=
  match d with
  | O => O
  | S d' => (k * S (tree_size k d'))%nat
  end.

(** The height of the move stack after the calls [t], from height [n];
    [None] when a pop finds the stack at height 0. *)
Fixpoint stack_height {E : Engine} (n : nat) (t : list Event) : option nat :=
  match t with
  | [] => Some n
  | EvLegalMoves :: rest => stack_height n rest
  | EvPush _ :: rest => stack_height (S n) rest
  | EvPop :: rest =>
      match n with
      | O => None
      | S n' => stack_height n' rest
      end
  end.

(** A computation that makes at most [n] pushes. *)
Definition makes_at_most {E : Engine} {A} (n : nat) (c : M A) : Prop :=
  forall b r b' t, c b = Some (r, b', t) -> (pushes t <= n)%nat.

(** A computation whose calls leave the move stack at the height they found
    it, whatever that height, and never pop it below. *)
Definition nests {E : Engine} {A} (c : M A) : Prop :=
  forall b r b' t, c b = Some (r, b', t) -> forall n, stack_height n t = Some n.

(** ** The evaluator *)

Ltac run_board :=
  unfold bind, ret, board_pieces, board_turn, board_is_game_over,
    board_legal_moves, board_push, board_pop; simpl.

Lemma evaluate_loop_run {E : Engine} (ps : list PieceType) :
  forall (score : Z) (b : Board),
    evaluate_loop ps score b =
    Some (fold_left
            (fun score piece =>
               score + Z.of_nat (length (pieces b piece WHITE)) * getitem piece_values piece
                     - Z.of_nat (length (pieces b piece BLACK)) * getitem piece_values piece)
            ps score, b, []).
Proof.
  induction ps as [|piece rest IH]; intros score b.
  - reflexivity.
  - simpl. run_board. rewrite IH. reflexivity.
Qed.

Lemma evaluate_value_material {E : Engine} (b : Board) :
  evaluate_value b = material_balance b.
Proof.
  unfold evaluate_value, material_balance, count_of_kind. cbn. lia.
Qed.

Lemma evaluate_board_run {E : Engine} (b : Board) :
  evaluate_board b = Some (evaluate_value b, b, []).
Proof. unfold evaluate_board. apply evaluate_loop_run. Qed.

(** C3: [evaluate_board] returns the sum over the six kinds of (White's
    count minus Black's count) times the value of the kind (1, 3, 3, 5, 9,
    0), and it is pure: the board it leaves is the board it was given and it
    makes no call that generates moves or changes the position. *)
Theorem evaluate_board_is_material_balance :
  forall (E : Engine) (b : Board),
    evaluate_board b = Some (material_balance b, b, []) /\
    material_balance b =
      (count_of_kind b PAWN WHITE - count_of_kind b PAWN BLACK) * 1
      + (count_of_kind b KNIGHT WHITE - count_of_kind b KNIGHT BLACK) * 3
      + (count_of_kind b BISHOP WHITE - count_of_kind b BISHOP BLACK) * 3
      + (count_of_kind b ROOK WHITE - count_of_kind b ROOK BLACK) * 5
      + (count_of_kind b QUEEN WHITE - count_of_kind b QUEEN BLACK) * 9
      + (count_of_kind b KING WHITE - count_of_kind b KING BLACK) * 0.
Proof.
  intros E b. split.
  - rewrite evaluate_board_run, evaluate_value_material. reflexivity.
  - unfold material_balance. cbn. lia.
Qed.

Lemma evaluate_value_placement {E : Engine} (b1 b2 : Board) :
  (forall p c, pieces b1 p c = pieces b2 p c) ->
  evaluate_value b1 = evaluate_value b2.
Proof.
  intros H. unfold evaluate_value. cbn. now rewrite !H.
Qed.

(** C9: [evaluate_board] depends on the placement of the pieces only: two
    boards that hold the same pieces, whoever is to move on them and
    whatever else they differ in, get the same score. *)
Theorem evaluate_board_ignores_turn :
  forall (E : Engine) (b1 b2 : Board),
    (forall p c, pieces b1 p c = pieces b2 p c) ->
    exists score : Z,
      evaluate_board b1 = Some (score, b1, []) /\
      evaluate_board b2 = Some (score, b2, []).
Proof.
  intros E b1 b2 H. exists (evaluate_value b1). split.
  - apply evaluate_board_run.
  - rewrite (evaluate_value_placement b1 b2 H). apply evaluate_board_run.
Qed.

Lemma evaluate_board_ignores_turn_witness :
  turn (Engine := toy true) (at_root hanging_queen WHITE)
    <> turn (Engine := toy true) (at_root hanging_queen BLACK) /\
  exists score : Z,
    evaluate_board (E := toy true) (at_root hanging_queen WHITE)
      = Some (score, at_root hanging_queen WHITE, []) /\
    evaluate_board (E := toy true) (at_root hanging_queen BLACK)
      = Some (score, at_root hanging_queen BLACK, []).
Proof.
  split.
  - simpl. discriminate.
  - apply (evaluate_board_ignores_turn (toy true)
             (at_root hanging_queen WHITE) (at_root hanging_queen BLACK)).
    intros p c. reflexivity.
Defined.

(** ** The base case and the degenerate case of minimax *)

Lemma minimax_stop {E : Engine} (fuel : nat) (depth : Z) (alpha beta : Score)
    (m : bool) (b : Board) :
  depth = 0 \/ is_game_over b = true ->
  minimax (S fuel) depth alpha beta m b = Some (Fin (evaluate_value b), b, []).
Proof.
  intros H. simpl. unfold bind at 1.
  destruct (depth =? 0) eqn:D.
  - unfold ret at 1. unfold bind. rewrite evaluate_board_run. reflexivity.
  - unfold board_is_game_over at 1. destruct H as [H | H].
    + subst depth. discriminate.
    + rewrite H. unfold bind. rewrite evaluate_board_run. reflexivity.
Qed.

(** C6: at depth 0, whatever the window and the flag, [minimax] returns
    [evaluate_board] of the position at once: it asks for no legal moves and
    applies none, and leaves the board alone.  The same holds at any depth
    when the board is game-over. *)
Theorem minimax_base_case :
  forall (E : Engine) (fuel : nat) (alpha beta : Score) (m : bool) (b : Board),
    minimax (S fuel) 0 alpha beta m b = Some (Fin (material_balance b), b, []) /\
    forall depth : Z,
      is_game_over b = true ->
      minimax (S fuel) depth alpha beta m b = Some (Fin (material_balance b), b, []).
Proof.
  intros E fuel alpha beta m b. rewrite <- evaluate_value_material. split.
  - apply minimax_stop. now left.
  - intros depth H. apply minimax_stop. now right.
Qed.

Lemma minimax_step {E : Engine} (fuel : nat) (depth : Z) (alpha beta : Score)
    (m : bool) (b : Board) :
  depth <> 0 ->
  is_game_over b = false ->
  minimax (S fuel) depth alpha beta m b =
  match
    (if m then max_loop (minimax fuel (depth - 1)) (legal_moves b) NegInf alpha beta b
     else min_loop (minimax fuel (depth - 1)) (legal_moves b) PosInf alpha beta b)
  with
  | Some (r, b', t) => Some (r, b', EvLegalMoves :: t)
  | None => None
  end.
Proof.
  intros Hd Ho. simpl.
  destruct (depth =? 0) eqn:D; [apply Z.eqb_eq in D; contradiction|].
  run_board. rewrite Ho.
  destruct m; simpl;
    match goal with |- context [match ?c with _ => _ end] => destruct c as [[[r b'] t]|] end;
    reflexivity.
Qed.

(** C8: with no legal move, the board not game-over and depth at least 1,
    [minimax] asks for the legal moves, runs no iteration of its loop (no
    push, no pop) and returns the sentinel: minus infinity when maximizing,
    plus infinity when minimizing. *)
Theorem minimax_no_moves_sentinel :
  forall (E : Engine) (fuel : nat) (depth : Z) (alpha beta : Score) (m : bool)
         (b : Board),
    1 <= depth ->
    legal_moves b = [] ->
    is_game_over b = false ->
    minimax (S fuel) depth alpha beta m b
      = Some (if m then NegInf else PosInf, b, [EvLegalMoves]).
Proof.
  intros E fuel depth alpha beta m b Hd Hm Ho.
  rewrite minimax_step by (lia || assumption).
  rewrite Hm. destruct m; reflexivity.
Qed.

Lemma minimax_no_moves_sentinel_witness :
  minimax (E := toy false) 1 3 (Fin (-4)) (Fin 7) true (at_root stuck WHITE)
    = Some (NegInf, at_root stuck WHITE, [EvLegalMoves]) /\
  minimax (E := toy false) 1 3 (Fin (-4)) (Fin 7) false (at_root stuck WHITE)
    = Some (PosInf, at_root stuck WHITE, [EvLegalMoves]).
Proof.
  split.
  - apply (minimax_no_moves_sentinel (toy false) 0 3 (Fin (-4)) (Fin 7) true
             (at_root stuck WHITE)); [lia | reflexivity | reflexivity].
  - apply (minimax_no_moves_sentinel (toy false) 0 3 (Fin (-4)) (Fin 7) false
             (at_root stuck WHITE)); [lia | reflexivity | reflexivity].
Defined.

Lemma minimax_base_case_witness :
  let b := at_root (Node (material 0 1 1 1) true [leaf 0 1 1 0]) BLACK in
  minimax (E := toy true) 1 5 NegInf PosInf false b = Some (Fin (-9), b, []).
Proof.
  intros b.
  apply (proj2 (minimax_base_case (toy true) 0 NegInf PosInf false b) 5).
  reflexivity.
Defined.

(** ** Every push is undone by one pop *)

Lemma bind_inv {E : Engine} {A B} (c : M A) (k : A -> M B) (b : Board) r b2 t :
  bind c k b = Some (r, b2, t) ->
  exists a b1 t1 t2,
    c b = Some (a, b1, t1) /\ k a b1 = Some (r, b2, t2) /\ t = t1 ++ t2.
Proof.
  unfold bind. destruct (c b) as [[[a b1] t1]|]; [|discriminate].
  destruct (k a b1) as [[[r' b2'] t2]|] eqn:K; [|discriminate].
  intros H. injection H as -> -> <-. now exists a, b1, t1, t2.
Qed.

Lemma pushes_app {E : Engine} (t1 t2 : list Event) :
  pushes (t1 ++ t2) = (pushes t1 + pushes t2)%nat.
Proof. unfold pushes. now rewrite filter_app, length_app. Qed.

Lemma pops_app {E : Engine} (t1 t2 : list Event) :
  pops (t1 ++ t2) = (pops t1 + pops t2)%nat.
Proof. unfold pops. now rewrite filter_app, length_app. Qed.

Section Balance.
Context {E : Engine}.
Hypothesis LIFO : pop_undoes_push E.

Lemma max_loop_restores (self : Score -> Score -> bool -> M Score) :
  (forall a k f, restores (self a k f)) ->
  forall moves max_eval alpha beta,
    restores (max_loop self moves max_eval alpha beta).
Proof.
  intros Hself moves. induction moves as [|move rest IH];
    intros max_eval alpha beta b r b' t H; simpl in H.
  - injection H as <- <- <-. now split.
  - apply bind_inv in H. destruct H as ([] & b1 & t1 & t2 & Hpush & H & ->).
    injection Hpush as <- <-.
    apply bind_inv in H. destruct H as (eval & b2 & t3 & t4 & Hrec & H & ->).
    apply Hself in Hrec. destruct Hrec as [-> Hbal].
    apply bind_inv in H. destruct H as ([] & b3 & t5 & t6 & Hpop & H & ->).
    injection Hpop as <- <-. rewrite LIFO in H.
    assert (b' = b /\ pushes t6 = pops t6) as [-> Hrest].
    { destruct (sle beta (smax alpha eval)).
      - injection H as <- <- <-. now split.
      - now apply IH in H. }
    split; [reflexivity|].
    rewrite !pushes_app, !pops_app, Hbal, Hrest. cbn. lia.
Qed.

Lemma min_loop_restores (self : Score -> Score -> bool -> M Score) :
  (forall a k f, restores (self a k f)) ->
  forall moves min_eval alpha beta,
    restores (min_loop self moves min_eval alpha beta).
Proof.
  intros Hself moves. induction moves as [|move rest IH];
    intros min_eval alpha beta b r b' t H; simpl in H.
  - injection H as <- <- <-. now split.
  - apply bind_inv in H. destruct H as ([] & b1 & t1 & t2 & Hpush & H & ->).
    injection Hpush as <- <-.
    apply bind_inv in H. destruct H as (eval & b2 & t3 & t4 & Hrec & H & ->).
    apply Hself in Hrec. destruct Hrec as [-> Hbal].
    apply bind_inv in H. destruct H as ([] & b3 & t5 & t6 & Hpop & H & ->).
    injection Hpop as <- <-. rewrite LIFO in H.
    assert (b' = b /\ pushes t6 = pops t6) as [-> Hrest].
    { destruct (sle (smin beta eval) alpha).
      - injection H as <- <- <-. now split.
      - now apply IH in H. }
    split; [reflexivity|].
    rewrite !pushes_app, !pops_app, Hbal, Hrest. cbn. lia.
Qed.

Lemma minimax_restores (fuel : nat) :
  forall depth alpha beta m, restores (minimax fuel depth alpha beta m).
Proof.
  induction fuel as [|fuel IH]; intros depth alpha beta m b r b' t H.
  - discriminate.
  - destruct (Z.eq_dec depth 0) as [D | D];
      [| destruct (is_game_over b) eqn:Ho].
    + rewrite minimax_stop in H by now left.
      injection H as <- <- <-. now split.
    + rewrite minimax_stop in H by now right.
      injection H as <- <- <-. now split.
    + rewrite minimax_step in H by assumption.
      destruct m.
      * destruct (max_loop _ _ _ _ _ b) as [[[r1 b1] t1]|] eqn:L; [|discriminate].
        injection H as <- <- <-.
        apply max_loop_restores in L; [|intros; apply IH].
        destruct L as [-> L]. split; [reflexivity|].
        change (EvLegalMoves :: t1) with ([EvLegalMoves] ++ t1).
        now rewrite pushes_app, pops_app, L.
      * destruct (min_loop _ _ _ _ _ b) as [[[r1 b1] t1]|] eqn:L; [|discriminate].
        injection H as <- <- <-.
        apply min_loop_restores in L; [|intros; apply IH].
        destruct L as [-> L]. split; [reflexivity|].
        change (EvLegalMoves :: t1) with ([EvLegalMoves] ++ t1).
        now rewrite pushes_app, pops_app, L.
Qed.

Lemma best_move_loop_restores (fuel : nat) (depth : Z) (moves : list Move) :
  forall best_move best_value,
    restores (best_move_loop fuel depth moves best_move best_value).
Proof.
  induction moves as [|move rest IH]; intros best_move best_value b r b' t H;
    simpl in H.
  - injection H as <- <- <-. now split.
  - apply bind_inv in H. destruct H as ([] & b1 & t1 & t2 & Hpush & H & ->).
    injection Hpush as <- <-.
    apply bind_inv in H. destruct H as (tn & b2 & t3 & t4 & Hturn & H & ->).
    injection Hturn as <- <- <-.
    apply bind_inv in H. destruct H as (v & b2 & t3 & t5 & Hrec & H & ->).
    apply minimax_restores in Hrec. destruct Hrec as [-> Hbal].
    apply bind_inv in H. destruct H as ([] & b3 & t6 & t7 & Hpop & H & ->).
    injection Hpop as <- <-. rewrite LIFO in H.
    apply bind_inv in H. destruct H as (tn & b4 & t8 & t9 & Hturn & H & ->).
    injection Hturn as <- <- <-.
    assert (b' = b /\ pushes t9 = pops t9) as [-> Hrest].
    { destruct (turn b && slt best_value v).
      - now apply IH in H.
      - apply bind_inv in H. destruct H as (tn & b5 & t10 & t11 & Hturn & H & ->).
        injection Hturn as <- <- <-. simpl.
        destruct (negb (turn b) && slt v best_value); now apply IH in H. }
    split; [reflexivity|].
    repeat (rewrite ?pushes_app, ?pops_app; simpl).
    rewrite Hbal, Hrest. cbn. lia.
Qed.

Lemma get_best_move_restores (fuel : nat) (depth : Z) :
  restores (get_best_move fuel depth).
Proof.
  intros b r b' t H. unfold get_best_move in H.
  apply bind_inv in H. destruct H as (tn & b1 & t1 & t2 & Hturn & H & ->).
  injection Hturn as <- <- <-.
  apply bind_inv in H. destruct H as (ms & b1 & t1 & t3 & Hms & H & ->).
  injection Hms as <- <- <-.
  apply best_move_loop_restores in H. destruct H as [-> H].
  split; [reflexivity|]. simpl. exact H.
Qed.
End Balance.

Lemma toy_pop_undoes_push (strict : bool) : pop_undoes_push (toy strict).
Proof. intros [g s u] m. reflexivity. Qed.

Lemma toy_push_passes_turn (strict : bool) : push_passes_turn (toy strict).
Proof. intros b m. reflexivity. Qed.

Lemma toy_no_moves_is_game_over : no_moves_is_game_over (toy true).
Proof.
  intros b H. cbn in *. destruct (kids_of (here b)); [|discriminate].
  now rewrite orb_true_r.
Qed.

(** ** Termination *)

Section Termination.
Context {E : Engine}.

Lemma max_loop_total (self : Score -> Score -> bool -> M Score) :
  (forall a k f, total (self a k f)) ->
  forall moves max_eval alpha beta, total (max_loop self moves max_eval alpha beta).
Proof.
  intros Hself moves. induction moves as [|move rest IH];
    intros max_eval alpha beta b; simpl.
  - eexists. reflexivity.
  - run_board.
    destruct (Hself alpha beta false (push b move)) as [[[eval b1] t1] ->].
    destruct (sle beta (smax alpha eval)).
    + eexists. reflexivity.
    + destruct (IH (smax max_eval eval) (smax alpha eval) beta (pop b1))
        as [[[r b2] t2] ->].
      eexists. reflexivity.
Qed.

Lemma min_loop_total (self : Score -> Score -> bool -> M Score) :
  (forall a k f, total (self a k f)) ->
  forall moves min_eval alpha beta, total (min_loop self moves min_eval alpha beta).
Proof.
  intros Hself moves. induction moves as [|move rest IH];
    intros min_eval alpha beta b; simpl.
  - eexists. reflexivity.
  - run_board.
    destruct (Hself alpha beta true (push b move)) as [[[eval b1] t1] ->].
    destruct (sle (smin beta eval) alpha).
    + eexists. reflexivity.
    + destruct (IH (smin min_eval eval) alpha (smin beta eval) (pop b1))
        as [[[r b2] t2] ->].
      eexists. reflexivity.
Qed.

Lemma minimax_total (fuel : nat) :
  forall depth alpha beta m,
    0 <= depth -> (Z.to_nat depth < fuel)%nat ->
    total (minimax fuel depth alpha beta m).
Proof.
  induction fuel as [|fuel IH]; intros depth alpha beta m Hd Hf b; [lia|].
  destruct (Z.eq_dec depth 0) as [D | D]; [| destruct (is_game_over b) eqn:Ho].
  - rewrite minimax_stop by now left. eexists. reflexivity.
  - rewrite minimax_stop by now right. eexists. reflexivity.
  - rewrite minimax_step by assumption.
    assert (Hself : forall a k f, total (minimax fuel (depth - 1) a k f))
      by (intros; apply IH; lia).
    destruct m.
    + destruct (max_loop_total _ Hself (legal_moves b) NegInf alpha beta b)
        as [[[r b1] t1] ->].
      eexists. reflexivity.
    + destruct (min_loop_total _ Hself (legal_moves b) PosInf alpha beta b)
        as [[[r b1] t1] ->].
      eexists. reflexivity.
Qed.

Lemma best_move_loop_total (fuel : nat) (depth : Z) :
  1 <= depth -> (Z.to_nat depth <= fuel)%nat ->
  forall moves best_move best_value,
    total (best_move_loop fuel depth moves best_move best_value).
Proof.
  intros Hd Hf moves. induction moves as [|move rest IH];
    intros best_move best_value b; simpl.
  - eexists. reflexivity.
  - run_board.
    destruct (minimax_total fuel (depth - 1) NegInf PosInf
                (negb (turn (push b move))) ltac:(lia) ltac:(lia) (push b move))
      as [[[v b1] t1] ->].
    destruct (turn (pop b1) && slt best_value v).
    + destruct (IH (Some move) v (pop b1)) as [[[r b2] t2] ->].
      eexists. reflexivity.
    + destruct (negb (turn (pop b1)) && slt v best_value).
      * destruct (IH (Some move) v (pop b1)) as [[[r b2] t2] ->].
        eexists. reflexivity.
      * destruct (IH best_move best_value (pop b1)) as [[[r b2] t2] ->].
        eexists. reflexivity.
Qed.

Lemma get_best_move_total (fuel : nat) (depth : Z) :
  1 <= depth -> (Z.to_nat depth <= fuel)%nat ->
  total (get_best_move fuel depth).
Proof.
  intros Hd Hf b. unfold get_best_move. run_board.
  destruct (best_move_loop_total fuel depth Hd Hf (legal_moves b) None
              (if turn b then NegInf else PosInf) b) as [[[r b1] t1] ->].
  eexists. reflexivity.
Qed.
End Termination.

(** C4: on an engine whose pop undoes push, every call of [minimax] and of
    [get_best_move] that returns, whatever the depth, the window and the
    flag and whether or not a loop was left by the cutoff, has made as many
    pushes as pops and leaves the board identical to the one it was given;
    and [minimax] at depth >= 0 and [get_best_move] at depth >= 1 do
    return. *)
Theorem push_pop_balance :
  forall (E : Engine),
    pop_undoes_push E ->
    forall (fuel : nat) (depth : Z) (b : Board),
      (forall alpha beta m r b' t,
          minimax fuel depth alpha beta m b = Some (r, b', t) ->
          b' = b /\ pushes t = pops t) /\
      (forall r b' t,
          get_best_move fuel depth b = Some (r, b', t) ->
          b' = b /\ pushes t = pops t) /\
      (0 <= depth -> (Z.to_nat depth < fuel)%nat ->
       forall alpha beta m,
       exists r t,
         minimax fuel depth alpha beta m b = Some (r, b, t) /\ pushes t = pops t) /\
      (1 <= depth -> (Z.to_nat depth <= fuel)%nat ->
       exists r t,
         get_best_move fuel depth b = Some (r, b, t) /\ pushes t = pops t).
Proof.
  intros E LIFO fuel depth b. repeat split.
  - exact (proj1 (minimax_restores LIFO fuel _ _ _ _ _ _ _ _ H)).
  - exact (proj2 (minimax_restores LIFO fuel _ _ _ _ _ _ _ _ H)).
  - exact (proj1 (get_best_move_restores LIFO fuel depth _ _ _ _ H)).
  - exact (proj2 (get_best_move_restores LIFO fuel depth _ _ _ _ H)).
  - intros Hd Hf alpha beta m.
    destruct (minimax_total fuel depth alpha beta m Hd Hf b) as [[[r b'] t] H].
    destruct (minimax_restores LIFO fuel _ _ _ _ _ _ _ _ H) as [-> Hbal].
    now exists r, t.
  - intros Hd Hf.
    destruct (get_best_move_total fuel depth Hd Hf b) as [[[r b'] t] H].
    destruct (get_best_move_restores LIFO fuel depth _ _ _ _ H) as [-> Hbal].
    now exists r, t.
Qed.

Lemma push_pop_balance_witness :
  let b := at_root hanging_queen WHITE in
  let pruned : list (@Event (toy true)) :=
    let mv := @EvPush (toy true) in
    [EvLegalMoves; mv 0%nat; EvLegalMoves; mv 0%nat; EvPop; EvPop;
     mv 1%nat; EvLegalMoves; mv 0%nat; EvPop; EvPop] in
  minimax (E := toy true) 3 2 (Fin (-1)) (Fin 0) true b = Some (Fin (-1), b, pruned) /\
  b = b /\ pushes pruned = pops pruned.
Proof.
  intros b pruned.
  assert (H : minimax (E := toy true) 3 2 (Fin (-1)) (Fin 0) true b
              = Some (Fin (-1), b, pruned)) by reflexivity.
  split; [exact H|].
  exact (proj1 (push_pop_balance (toy true) (toy_pop_undoes_push true) 3 2 b)
           (Fin (-1)) (Fin 0) true (Fin (-1)) b pruned H).
Defined.

(** ** The order on scores *)

Module ScoreOrderFacts.
Import ScoreOrder.

Lemma eq_equiv : Equivalence eq.
Proof. unfold eq. apply eq_equivalence. Qed.

Lemma lt_strorder : StrictOrder lt.
Proof.
  split.
  - intros [|x|]; unfold complement, lt; simpl; try discriminate.
    rewrite Z.ltb_irrefl. discriminate.
  - intros [|x|] [|y|] [|z|]; unfold lt; simpl; try discriminate; try reflexivity.
    rewrite !Z.ltb_lt. lia.
Qed.

Lemma lt_compat : Proper (eq ==> eq ==> iff) lt.
Proof. intros a b -> c d ->. reflexivity. Qed.

Lemma le_lteq : forall x y, le x y <-> lt x y \/ eq x y.
Proof.
  intros [|x|] [|y|]; unfold le, lt, eq, sle; simpl;
    try (split; [intros _; (now left) || (now right) | reflexivity]);
    try (split; [discriminate | intros [H | H]; discriminate]).
  rewrite negb_true_iff, Z.ltb_ge, Z.ltb_lt. split.
  - intros H. destruct (Z.eq_dec x y) as [-> | N]; [now right | left; lia].
  - intros [H | H]; [lia | injection H as ->; lia].
Qed.

Lemma lt_total : forall x y, lt x y \/ eq x y \/ lt y x.
Proof.
  intros [|x|] [|y|]; unfold lt, eq; simpl; auto.
  rewrite !Z.ltb_lt.
  destruct (Z.lt_trichotomy x y) as [H | [-> | H]]; auto.
Qed.
End ScoreOrderFacts.

Module ScoreTac := !OrdersTac.MakeOrderTac ScoreOrder ScoreOrderFacts.

Lemma slt_false (a b : Score) : slt a b = false <-> sle b a = true.
Proof. unfold sle. destruct (slt a b); simpl; split; congruence. Qed.

Lemma sle_false (a b : Score) : sle a b = false <-> slt b a = true.
Proof. unfold sle. destruct (slt b a); simpl; split; congruence. Qed.

(** Turns the tests on scores into facts of the order and closes the goal
    with the order tactic, splitting on every [max], [min] and test. *)
Ltac score_props :=
  repeat match goal with
    | H : slt _ _ = false |- _ => apply slt_false in H
    | H : sle _ _ = false |- _ => apply sle_false in H
    end;
  repeat match goal with
    | H : slt ?a ?b = true |- _ => change (ScoreOrder.lt a b) in H
    | H : sle ?a ?b = true |- _ => change (ScoreOrder.le a b) in H
    | H : @Logic.eq Score ?a ?b |- _ => change (ScoreOrder.eq a b) in H
    end;
  try match goal with
    | |- slt _ _ = false => apply slt_false
    | |- sle _ _ = false => apply sle_false
    end;
  try match goal with
    | |- slt ?a ?b = true => change (ScoreOrder.lt a b)
    | |- sle ?a ?b = true => change (ScoreOrder.le a b)
    | |- @Logic.eq Score ?a ?b => change (ScoreOrder.eq a b)
    end.

Ltac score_case c :=
  let C := fresh "C" in destruct c eqn:C; rewrite ?C in *.

Ltac score_split :=
  repeat match goal with
    | H : _ /\ _ |- _ => destruct H
    | |- _ /\ _ => split
    | |- _ -> _ => intro
    | |- context [if ?c then _ else _] => score_case c
    | H : context [if ?c then _ else _] |- _ => score_case c
    | H : ?c = true -> _ |- _ =>
        let C := fresh "C" in destruct c eqn:C; [specialize (H eq_refl) | clear H]
    end.

Ltac score_order :=
  unfold agrees, smax, smin in *; score_split;
  try discriminate; try reflexivity; score_props; try ScoreTac.order.

Lemma smax_ge_l (a b : Score) : sle a (smax a b) = true.
Proof. score_order. Qed.

Lemma fold_smax_ge (l : list Score) : forall a, sle a (fold_left smax l a) = true.
Proof.
  induction l as [|x l IH]; intros a; simpl.
  - score_order.
  - specialize (IH (smax a x)). pose proof (smax_ge_l a x). score_order.
Qed.

Lemma smin_le_l (a b : Score) : sle (smin a b) a = true.
Proof. score_order. Qed.

Lemma fold_smin_le (l : list Score) : forall a, sle (fold_left smin l a) a = true.
Proof.
  induction l as [|x l IH]; intros a; simpl.
  - score_order.
  - specialize (IH (smin a x)). pose proof (smin_le_l a x). score_order.
Qed.

(** ** Pruning does not change the value *)

Section Pruning.
Context {E : Engine}.

Lemma max_value_agrees (self : Board -> Score -> Score -> Score)
    (plain : Board -> Score) (b : Board) (alpha0 beta : Score) :
  (forall c a, slt a beta = true -> agrees a beta (self c a beta) (plain c)) ->
  forall moves max_eval alpha v,
    alpha = smax alpha0 max_eval ->
    slt alpha beta = true ->
    sle v max_eval = true ->
    (slt alpha0 max_eval = true -> sle max_eval v = true) ->
    agrees alpha0 beta (max_value self b moves max_eval alpha beta)
      (fold_left smax (map (fun m => plain (push b m)) moves) v).
Proof.
  intros Hself moves. induction moves as [|move rest IH];
    intros max_eval alpha v Ha Hw Hle Hge; simpl.
  - subst alpha. score_order.
  - pose proof (Hself (push b move) alpha Hw) as He.
    set (eval := self (push b move) alpha beta) in *.
    set (w := plain (push b move)) in *.
    destruct (sle beta (smax alpha eval)) eqn:Cut.
    + pose proof (fold_smax_ge (map (fun m => plain (push b m)) rest) (smax v w)) as Hall.
      set (total_value := fold_left smax _ (smax v w)) in *.
      clearbody total_value eval w. clear IH Hself. subst alpha. score_order.
    + apply IH; clearbody eval w; clear IH Hself; subst alpha; score_order.
Qed.
Lemma min_value_agrees (self : Board -> Score -> Score -> Score)
    (plain : Board -> Score) (b : Board) (alpha beta0 : Score) :
  (forall c k, slt alpha k = true -> agrees alpha k (self c alpha k) (plain c)) ->
  forall moves min_eval beta v,
    beta = smin beta0 min_eval ->
    slt alpha beta = true ->
    sle min_eval v = true ->
    (slt min_eval beta0 = true -> sle v min_eval = true) ->
    agrees alpha beta0 (min_value self b moves min_eval alpha beta)
      (fold_left smin (map (fun m => plain (push b m)) moves) v).
Proof.
  intros Hself moves. induction moves as [|move rest IH];
    intros min_eval beta v Hb Hw Hle Hge; simpl.
  - subst beta. score_order.
  - pose proof (Hself (push b move) beta Hw) as He.
    set (eval := self (push b move) alpha beta) in *.
    set (w := plain (push b move)) in *.
    destruct (sle (smin beta eval) alpha) eqn:Cut.
    + pose proof (fold_smin_le (map (fun m => plain (push b m)) rest) (smin v w)) as Hall.
      set (total_value := fold_left smin _ (smin v w)) in *.
      clearbody total_value eval w. clear IH Hself. subst beta. score_order.
    + apply IH; clearbody eval w; clear IH Hself; subst beta; score_order.
Qed.

Lemma minimax_value_agrees (d : nat) :
  forall (b : Board) (alpha beta : Score) (m : bool),
    slt alpha beta = true ->
    agrees alpha beta (minimax_value d b alpha beta m) (plain_minimax d b m).
Proof.
  induction d as [|d IH]; intros b alpha beta m Hw; simpl.
  - rewrite evaluate_value_material. score_order.
  - destruct (is_game_over b).
    + rewrite evaluate_value_material. score_order.
    + destruct m.
      * apply (max_value_agrees (fun c a k => minimax_value d c a k false)
                 (fun c => plain_minimax d c false) b alpha beta).
        -- intros c a Ha. now apply IH.
        -- now destruct alpha.
        -- exact Hw.
        -- reflexivity.
        -- now destruct alpha.
      * apply (min_value_agrees (fun c a k => minimax_value d c a k true)
                 (fun c => plain_minimax d c true) b alpha beta).
        -- intros c k Hk. now apply IH.
        -- now destruct beta.
        -- exact Hw.
        -- reflexivity.
        -- now destruct beta.
Qed.

Lemma agrees_full_window (r v : Score) : agrees NegInf PosInf r v -> r = v.
Proof.
  intros (Hlow & Hhigh & Hin). destruct r as [|z|].
  - specialize (Hlow eq_refl). destruct v; [reflexivity | discriminate | discriminate].
  - symmetry. now apply Hin.
  - specialize (Hhigh eq_refl). destruct v; [discriminate | discriminate | reflexivity].
Qed.
End Pruning.

(** ** The code returns the values above *)

Section Run.
Context {E : Engine}.
Hypothesis LIFO : pop_undoes_push E.

Lemma max_loop_run (self : Score -> Score -> bool -> M Score)
    (value : Board -> Score -> Score -> Score) (b : Board) :
  (forall c a k, exists t, self a k false c = Some (value c a k, c, t)) ->
  forall moves max_eval alpha beta,
  exists t, max_loop self moves max_eval alpha beta b
            = Some (max_value value b moves max_eval alpha beta, b, t).
Proof.
  intros Hself moves. induction moves as [|move rest IH];
    intros max_eval alpha beta; simpl.
  - eexists. reflexivity.
  - run_board. destruct (Hself (push b move) alpha beta) as [t1 ->].
    rewrite LIFO. destruct (sle beta (smax alpha (value (push b move) alpha beta))).
    + eexists. reflexivity.
    + destruct (IH (smax max_eval (value (push b move) alpha beta))
                  (smax alpha (value (push b move) alpha beta)) beta) as [t2 ->].
      eexists. reflexivity.
Qed.

Lemma min_loop_run (self : Score -> Score -> bool -> M Score)
    (value : Board -> Score -> Score -> Score) (b : Board) :
  (forall c a k, exists t, self a k true c = Some (value c a k, c, t)) ->
  forall moves min_eval alpha beta,
  exists t, min_loop self moves min_eval alpha beta b
            = Some (min_value value b moves min_eval alpha beta, b, t).
Proof.
  intros Hself moves. induction moves as [|move rest IH];
    intros min_eval alpha beta; simpl.
  - eexists. reflexivity.
  - run_board. destruct (Hself (push b move) alpha beta) as [t1 ->].
    rewrite LIFO. destruct (sle (smin beta (value (push b move) alpha beta)) alpha).
    + eexists. reflexivity.
    + destruct (IH (smin min_eval (value (push b move) alpha beta)) alpha
                  (smin beta (value (push b move) alpha beta))) as [t2 ->].
      eexists. reflexivity.
Qed.

Lemma minimax_run (fuel : nat) :
  forall depth alpha beta m b,
    0 <= depth -> (Z.to_nat depth < fuel)%nat ->
    exists t, minimax fuel depth alpha beta m b
              = Some (minimax_value (Z.to_nat depth) b alpha beta m, b, t).
Proof.
  induction fuel as [|fuel IH]; intros depth alpha beta m b Hd Hf; [lia|].
  destruct (Z.eq_dec depth 0) as [D | D].
  - subst depth. rewrite minimax_stop by now left. eexists. reflexivity.
  - replace (Z.to_nat depth) with (S (Z.to_nat (depth - 1))) by lia. simpl minimax_value.
    destruct (is_game_over b) eqn:Ho.
    + rewrite minimax_stop by now right. eexists. reflexivity.
    + rewrite minimax_step by assumption. destruct m.
      * destruct (max_loop_run (minimax fuel (depth - 1))
                    (fun c a k => minimax_value (Z.to_nat (depth - 1)) c a k false) b
                    ltac:(intros; apply IH; lia) (legal_moves b) NegInf alpha beta)
          as [t ->].
        eexists. reflexivity.
      * destruct (min_loop_run (minimax fuel (depth - 1))
                    (fun c a k => minimax_value (Z.to_nat (depth - 1)) c a k true) b
                    ltac:(intros; apply IH; lia) (legal_moves b) PosInf alpha beta)
          as [t ->].
        eexists. reflexivity.
Qed.

Lemma root_score_run (fuel : nat) (depth : Z) (b : Board) (move : Move) :
  1 <= depth -> (Z.to_nat depth <= fuel)%nat ->
  root_score fuel depth b move = Some (root_value depth b move).
Proof.
  intros Hd Hf. unfold root_score, root_value.
  destruct (minimax_run fuel (depth - 1) NegInf PosInf (negb (turn (push b move)))
              (push b move) ltac:(lia) ltac:(lia)) as [t ->].
  reflexivity.
Qed.

Lemma best_move_loop_run (fuel : nat) (depth : Z) (b : Board) :
  1 <= depth -> (Z.to_nat depth <= fuel)%nat ->
  forall moves best_move best_value,
  exists t, best_move_loop fuel depth moves best_move best_value b
            = Some (best_move_value (root_value depth b) (turn b) moves
                      best_move best_value, b, t).
Proof.
  intros Hd Hf moves. induction moves as [|move rest IH];
    intros best_move best_value; simpl.
  - eexists. reflexivity.
  - run_board.
    destruct (minimax_run fuel (depth - 1) NegInf PosInf (negb (turn (push b move)))
                (push b move) ltac:(lia) ltac:(lia)) as [t1 ->].
    rewrite LIFO. fold (root_value depth b move).
    destruct (turn b && slt best_value (root_value depth b move)).
    + destruct (IH (Some move) (root_value depth b move)) as [t2 ->].
      eexists. reflexivity.
    + destruct (negb (turn b) && slt (root_value depth b move) best_value).
      * destruct (IH (Some move) (root_value depth b move)) as [t2 ->].
        eexists. reflexivity.
      * destruct (IH best_move best_value) as [t2 ->].
        eexists. reflexivity.
Qed.

Lemma get_best_move_run (fuel : nat) (depth : Z) (b : Board) :
  1 <= depth -> (Z.to_nat depth <= fuel)%nat ->
  exists t, get_best_move fuel depth b
            = Some (best_move_value (root_value depth b) (turn b) (legal_moves b)
                      None (if turn b then NegInf else PosInf), b, t).
Proof.
  intros Hd Hf. unfold get_best_move. run_board.
  destruct (best_move_loop_run fuel depth b Hd Hf (legal_moves b) None
              (if turn b then NegInf else PosInf)) as [t ->].
  eexists. reflexivity.
Qed.
End Run.

(** C2: on an engine whose pop undoes push, for every position, every depth
    >= 0 and both values of the flag, [minimax] with the full window
    (-infinity, +infinity) returns the score of plain minimax, the search
    with the same base case and the same maximum and minimum but without
    the cutoff, over the same tree. *)
Theorem alpha_beta_equals_plain_minimax :
  forall (E : Engine),
    pop_undoes_push E ->
    forall (depth : Z) (m : bool) (b : Board) (fuel : nat),
      0 <= depth ->
      (Z.to_nat depth < fuel)%nat ->
      exists t,
        minimax fuel depth NegInf PosInf m b
        = Some (plain_minimax (Z.to_nat depth) b m, b, t).
Proof.
  intros E LIFO depth m b fuel Hd Hf.
  destruct (minimax_run LIFO fuel depth NegInf PosInf m b Hd Hf) as [t Ht].
  exists t. rewrite Ht. do 2 f_equal. f_equal.
  apply agrees_full_window. now apply minimax_value_agrees.
Qed.

Lemma alpha_beta_equals_plain_minimax_witness :
  exists t,
    minimax (E := toy true) 3 2 NegInf PosInf true (at_root hanging_queen WHITE)
    = Some (plain_minimax (E := toy true) 2 (at_root hanging_queen WHITE) true,
            at_root hanging_queen WHITE, t).
Proof.
  apply (alpha_beta_equals_plain_minimax (toy true) (toy_pop_undoes_push true)
           2 true (at_root hanging_queen WHITE) 3); [lia | simpl; lia].
Defined.

(** ** More fuel changes nothing *)

Section Fuel.
Context {E : Engine}.

Lemma max_loop_ext (self1 self2 : Score -> Score -> bool -> M Score) :
  (forall a k f c, self1 a k f c = self2 a k f c) ->
  forall moves max_eval alpha beta b,
    max_loop self1 moves max_eval alpha beta b
    = max_loop self2 moves max_eval alpha beta b.
Proof.
  intros H moves. induction moves as [|move rest IH];
    intros max_eval alpha beta b; simpl; [reflexivity|].
  run_board. rewrite H.
  destruct (self2 alpha beta false (push b move)) as [[[eval b1] t1]|]; [|reflexivity].
  destruct (sle beta (smax alpha eval)); [reflexivity|]. now rewrite IH.
Qed.

Lemma min_loop_ext (self1 self2 : Score -> Score -> bool -> M Score) :
  (forall a k f c, self1 a k f c = self2 a k f c) ->
  forall moves min_eval alpha beta b,
    min_loop self1 moves min_eval alpha beta b
    = min_loop self2 moves min_eval alpha beta b.
Proof.
  intros H moves. induction moves as [|move rest IH];
    intros min_eval alpha beta b; simpl; [reflexivity|].
  run_board. rewrite H.
  destruct (self2 alpha beta true (push b move)) as [[[eval b1] t1]|]; [|reflexivity].
  destruct (sle (smin beta eval) alpha); [reflexivity|]. now rewrite IH.
Qed.

Lemma minimax_fuel (fuel1 : nat) :
  forall fuel2 depth alpha beta m b,
    0 <= depth -> (Z.to_nat depth < fuel1)%nat -> (Z.to_nat depth < fuel2)%nat ->
    minimax fuel1 depth alpha beta m b = minimax fuel2 depth alpha beta m b.
Proof.
  induction fuel1 as [|fuel1 IH]; intros [|fuel2] depth alpha beta m b Hd H1 H2;
    try lia.
  destruct (Z.eq_dec depth 0) as [D | D]; [| destruct (is_game_over b) eqn:Ho].
  - now rewrite !minimax_stop by now left.
  - now rewrite !minimax_stop by now right.
  - rewrite !minimax_step by assumption.
    assert (Hself : forall a k f c,
               minimax fuel1 (depth - 1) a k f c = minimax fuel2 (depth - 1) a k f c)
      by (intros; apply IH; lia).
    destruct m.
    + now rewrite (max_loop_ext _ _ Hself).
    + now rewrite (min_loop_ext _ _ Hself).
Qed.

Lemma best_move_loop_fuel (fuel1 fuel2 : nat) (depth : Z) :
  1 <= depth -> (Z.to_nat depth <= fuel1)%nat -> (Z.to_nat depth <= fuel2)%nat ->
  forall moves best_move best_value b,
    best_move_loop fuel1 depth moves best_move best_value b
    = best_move_loop fuel2 depth moves best_move best_value b.
Proof.
  intros Hd H1 H2 moves. induction moves as [|move rest IH];
    intros best_move best_value b; simpl; [reflexivity|].
  run_board.
  rewrite (minimax_fuel fuel1 fuel2 (depth - 1)) by lia.
  destruct (minimax fuel2 (depth - 1) NegInf PosInf _ (push b move))
    as [[[v b1] t1]|]; [|reflexivity].
  destruct (turn (pop b1) && slt best_value v); [now rewrite IH|].
  destruct (negb (turn (pop b1)) && slt v best_value); now rewrite IH.
Qed.

Lemma get_best_move_fuel (fuel1 fuel2 : nat) (depth : Z) (b : Board) :
  1 <= depth -> (Z.to_nat depth <= fuel1)%nat -> (Z.to_nat depth <= fuel2)%nat ->
  get_best_move fuel1 depth b = get_best_move fuel2 depth b.
Proof.
  intros Hd H1 H2. unfold get_best_move. run_board.
  now rewrite (best_move_loop_fuel fuel1 fuel2 depth Hd H1 H2).
Qed.
End Fuel.

(** C10: [minimax] returns for every position, window and flag at every
    depth >= 0: some result is reached by every amount of fuel above the
    depth, each call going down by one to the test [depth == 0]; and
    [get_best_move], which calls it at [depth - 1], returns at every depth
    >= 1. *)
Theorem minimax_terminates :
  forall (E : Engine) (depth : Z) (b : Board),
    (0 <= depth ->
     forall alpha beta m,
     exists res, forall fuel : nat,
         (Z.to_nat depth < fuel)%nat ->
         minimax fuel depth alpha beta m b = Some res) /\
    (1 <= depth ->
     exists res, forall fuel : nat,
         (Z.to_nat depth <= fuel)%nat ->
         get_best_move fuel depth b = Some res).
Proof.
  intros E depth b. split.
  - intros Hd alpha beta m.
    destruct (minimax_total (S (Z.to_nat depth)) depth alpha beta m Hd ltac:(lia) b)
      as [res Hres].
    exists res. intros fuel Hf. rewrite <- Hres. apply minimax_fuel; lia.
  - intros Hd.
    destruct (get_best_move_total (Z.to_nat depth) depth Hd ltac:(lia) b)
      as [res Hres].
    exists res. intros fuel Hf. rewrite <- Hres. apply get_best_move_fuel; lia.
Qed.

Lemma minimax_terminates_witness :
  (exists res, forall fuel : nat,
      (Z.to_nat 2 < fuel)%nat ->
      minimax (E := endless) fuel 2 NegInf PosInf true tt = Some res) /\
  (exists res, forall fuel : nat,
      (Z.to_nat 3 <= fuel)%nat ->
      get_best_move (E := endless) fuel 3 tt = Some res).
Proof.
  split.
  - apply (proj1 (minimax_terminates endless 2 tt)). lia.
  - apply (proj2 (minimax_terminates endless 3 tt)). lia.
Defined.

(** Below depth 0 the test [depth == 0] is never met: where the game never
    ends, no amount of fuel lets [minimax] return, nor [get_best_move] at
    depth 0. *)
Lemma minimax_negative_depth_runs_on :
  forall (fuel : nat) (depth : Z) (alpha beta : Score) (m : bool),
    depth < 0 -> minimax (E := endless) fuel depth alpha beta m tt = None.
Proof.
  induction fuel as [|fuel IH]; intros depth alpha beta m Hd; [reflexivity|].
  rewrite minimax_step by (lia || reflexivity).
  destruct m; simpl; run_board; rewrite IH by lia; reflexivity.
Qed.

Lemma get_best_move_depth_0_runs_on :
  forall fuel : nat, get_best_move (E := endless) fuel 0 tt = None.
Proof.
  intros fuel. unfold get_best_move. run_board. unfold best_move_loop. run_board.
  now rewrite minimax_negative_depth_runs_on.
Qed.

(** ** The choice among the root moves *)

Section Selection.
Context {E : Engine}.
Variable value : Move -> Score.
Variable white : bool.

Lemma best_move_value_step (move : Move) (rest : list Move)
    (best_move : option Move) (best_value : Score) :
  best_move_value value white (move :: rest) best_move best_value =
  if better white (value move) best_value
  then best_move_value value white rest (Some move) (value move)
  else best_move_value value white rest best_move best_value.
Proof.
  simpl. unfold better. destruct white; simpl; [|reflexivity].
  now destruct (slt best_value (value move)).
Qed.

Lemma better_irrefl (x : Score) : better white x x = false.
Proof. unfold better. destruct white; score_order. Qed.

Lemma better_trans (x y z : Score) :
  better white x y = true -> better white y z = true -> better white x z = true.
Proof. unfold better. destruct white; intros; score_order. Qed.

Lemma better_asym (x y : Score) :
  better white x y = true -> better white y x = false.
Proof. unfold better. destruct white; intros; score_order. Qed.

Lemma not_better_trans (x y z : Score) :
  better white x y = false -> better white z y = true -> better white x z = false.
Proof. unfold better. destruct white; intros; score_order. Qed.

Lemma better_not_better (x y z : Score) :
  better white x y = true -> better white z y = false -> better white x z = true.
Proof. unfold better. destruct white; intros; score_order. Qed.

(** Either the loop never updates, and no move improves on the running
    best it started from; or it returns the move at some index [i], which
    improves on that running best, is improved on by no move, and is a
    strict improvement on every move before it. *)
Lemma best_move_value_spec (moves : list Move) :
  forall best_move best_value,
    (best_move_value value white moves best_move best_value = best_move /\
     forall m, In m moves -> better white (value m) best_value = false)
    \/
    (exists i m,
        nth_error moves i = Some m /\
        best_move_value value white moves best_move best_value = Some m /\
        better white (value m) best_value = true /\
        (forall j m', nth_error moves j = Some m' ->
                      better white (value m') (value m) = false) /\
        (forall j m', (j < i)%nat -> nth_error moves j = Some m' ->
                      better white (value m) (value m') = true)).
Proof.
  induction moves as [|move rest IH]; intros best_move best_value.
  - left. split; [reflexivity | intros m []].
  - rewrite best_move_value_step.
    destruct (better white (value move) best_value) eqn:B.
    + right. destruct (IH (Some move) (value move))
        as [[Hr Hall] | (i & m & Hi & Hr & Hb & Hmax & Hbefore)].
      * exists 0%nat, move. repeat split; try assumption; try reflexivity.
        -- intros [|j] m' Hj; simpl in Hj.
           ++ injection Hj as <-. apply better_irrefl.
           ++ apply Hall. eapply nth_error_In; eassumption.
        -- intros j m' Hj. lia.
      * exists (S i), m. repeat split; try assumption.
        -- eapply better_trans; eassumption.
        -- intros [|j] m' Hj; simpl in Hj.
           ++ injection Hj as <-. now apply better_asym.
           ++ eapply Hmax; eassumption.
        -- intros [|j] m' Hlt Hj; simpl in Hj.
           ++ now injection Hj as <-.
           ++ eapply Hbefore; [|eassumption]. lia.
    + destruct (IH best_move best_value)
        as [[Hr Hall] | (i & m & Hi & Hr & Hb & Hmax & Hbefore)].
      * left. split; [assumption|]. intros m [<- | Hin]; [assumption | now apply Hall].
      * right. exists (S i), m. repeat split; try assumption.
        -- intros [|j] m' Hj; simpl in Hj.
           ++ injection Hj as <-. eapply not_better_trans; eassumption.
           ++ eapply Hmax; eassumption.
        -- intros [|j] m' Hlt Hj; simpl in Hj.
           ++ injection Hj as <-. eapply better_not_better; eassumption.
           ++ eapply Hbefore; [|eassumption]. lia.
Qed.
End Selection.

(** C7: [get_best_move] replaces its running best only by a strict
    improvement (greater when White is to move, less when Black is), so at
    every depth >= 1 the move it returns is the earliest, in the order of
    [board.legal_moves], whose root score is the best one: no move has a
    better score, and every move before it has a strictly worse one, so a
    later move with an equal score never replaces it.  It returns no move
    only when no root score improves on the sentinel. *)
Theorem get_best_move_keeps_earliest_best :
  forall (E : Engine),
    pop_undoes_push E ->
    forall (depth : Z) (fuel : nat) (b : Board),
      1 <= depth ->
      (Z.to_nat depth <= fuel)%nat ->
      exists (r : option Move) (t : list Event) (score : Move -> Score),
        get_best_move fuel depth b = Some (r, b, t) /\
        (forall m, root_score fuel depth b m = Some (score m)) /\
        match r with
        | Some m =>
            exists i,
              nth_error (legal_moves b) i = Some m /\
              (forall j m', nth_error (legal_moves b) j = Some m' ->
                            better (turn b) (score m') (score m) = false) /\
              (forall j m', (j < i)%nat -> nth_error (legal_moves b) j = Some m' ->
                            better (turn b) (score m) (score m') = true)
        | None =>
            forall m', In m' (legal_moves b) ->
                       better (turn b) (score m') (sentinel (turn b)) = false
        end.
Proof.
  intros E LIFO depth fuel b Hd Hf.
  destruct (get_best_move_run LIFO fuel depth b Hd Hf) as [t Ht].
  eexists _, t, (root_value depth b). split; [exact Ht|].
  split; [intros m; now apply root_score_run|].
  destruct (best_move_value_spec (root_value depth b) (turn b) (legal_moves b) None
              (if turn b then NegInf else PosInf))
    as [[-> Hall] | (i & m & Hi & -> & Hb & Hmax & Hbefore)].
  - exact Hall.
  - exists i. repeat split; assumption.
Qed.

Lemma get_best_move_keeps_earliest_best_witness :
  exists (r : option nat) t (score : nat -> Score),
    get_best_move (E := toy true) 2 2 (at_root hanging_queen BLACK)
      = Some (r, at_root hanging_queen BLACK, t) /\
    (forall m, root_score (E := toy true) 2 2 (at_root hanging_queen BLACK) m
               = Some (score m)) /\
    match r with
    | Some m =>
        exists i,
          nth_error (legal_moves (Engine := toy true) (at_root hanging_queen BLACK)) i
            = Some m /\
          (forall j m',
              nth_error (legal_moves (Engine := toy true) (at_root hanging_queen BLACK)) j
                = Some m' ->
              better false (score m') (score m) = false) /\
          (forall j m', (j < i)%nat ->
              nth_error (legal_moves (Engine := toy true) (at_root hanging_queen BLACK)) j
                = Some m' ->
              better false (score m) (score m') = true)
    | None =>
        forall m',
          In m' (legal_moves (Engine := toy true) (at_root hanging_queen BLACK)) ->
          better false (score m') (sentinel false) = false
    end.
Proof.
  apply (get_best_move_keeps_earliest_best (toy true) (toy_pop_undoes_push true) 2 2
           (at_root hanging_queen BLACK)); [lia | simpl; lia].
Defined.

(** ** Finite scores *)

Section Finite.
Context {E : Engine}.
Hypothesis OVER : no_moves_is_game_over E.

Lemma smax_finite (a e : Score) :
  is_finite e = true -> a = NegInf \/ is_finite a = true ->
  is_finite (smax a e) = true.
Proof.
  intros He [-> | Ha]; destruct e; try discriminate; [reflexivity|].
  destruct a; try discriminate. unfold smax. simpl. now destruct (z0 <? z).
Qed.

Lemma smin_finite (a e : Score) :
  is_finite e = true -> a = PosInf \/ is_finite a = true ->
  is_finite (smin a e) = true.
Proof.
  intros He [-> | Ha]; destruct e; try discriminate; [reflexivity|].
  destruct a; try discriminate. unfold smin. simpl. now destruct (z <? z0).
Qed.

Lemma max_value_finite (self : Board -> Score -> Score -> Score) (b : Board) :
  (forall c a k, is_finite (self c a k) = true) ->
  forall moves max_eval alpha beta,
    is_finite max_eval = true \/ (max_eval = NegInf /\ moves <> []) ->
    is_finite (max_value self b moves max_eval alpha beta) = true.
Proof.
  intros Hself moves. induction moves as [|move rest IH];
    intros max_eval alpha beta H; simpl.
  - destruct H as [H | [_ H]]; [assumption | contradiction].
  - assert (Hm : is_finite (smax max_eval (self (push b move) alpha beta)) = true)
      by (apply smax_finite; [apply Hself | tauto]).
    destruct (sle beta _); [assumption|]. apply IH. now left.
Qed.

Lemma min_value_finite (self : Board -> Score -> Score -> Score) (b : Board) :
  (forall c a k, is_finite (self c a k) = true) ->
  forall moves min_eval alpha beta,
    is_finite min_eval = true \/ (min_eval = PosInf /\ moves <> []) ->
    is_finite (min_value self b moves min_eval alpha beta) = true.
Proof.
  intros Hself moves. induction moves as [|move rest IH];
    intros min_eval alpha beta H; simpl.
  - destruct H as [H | [_ H]]; [assumption | contradiction].
  - assert (Hm : is_finite (smin min_eval (self (push b move) alpha beta)) = true)
      by (apply smin_finite; [apply Hself | tauto]).
    destruct (sle _ alpha); [assumption|]. apply IH. now left.
Qed.

Lemma minimax_value_finite (d : nat) :
  forall b alpha beta m, is_finite (minimax_value d b alpha beta m) = true.
Proof.
  induction d as [|d IH]; intros b alpha beta m; simpl; [reflexivity|].
  destruct (is_game_over b) eqn:Ho; [reflexivity|].
  assert (Hm : legal_moves b <> []).
  { intros H. apply OVER in H. congruence. }
  destruct m.
  - apply max_value_finite; [intros; apply IH | now right].
  - apply min_value_finite; [intros; apply IH | now right].
Qed.

Lemma better_than_sentinel (white : bool) (v : Score) :
  is_finite v = true -> better white v (sentinel white) = true.
Proof. destruct white, v; simpl; intros; congruence. Qed.
End Finite.

(** C5: on an engine whose pop undoes push and which flags every position
    without legal moves game-over, at every depth >= 1 [get_best_move]
    returns, and it returns no move exactly when the position has no legal
    move; with at least one legal move it returns some move. *)
Theorem get_best_move_none_iff_no_moves :
  forall (E : Engine),
    pop_undoes_push E ->
    no_moves_is_game_over E ->
    forall (depth : Z) (fuel : nat) (b : Board),
      1 <= depth ->
      (Z.to_nat depth <= fuel)%nat ->
      exists (r : option Move) (t : list Event),
        get_best_move fuel depth b = Some (r, b, t) /\
        (r = None <-> legal_moves b = []) /\
        (legal_moves b <> [] -> exists m, r = Some m /\ In m (legal_moves b)).
Proof.
  intros E LIFO OVER depth fuel b Hd Hf.
  destruct (get_best_move_run LIFO fuel depth b Hd Hf) as [t Ht].
  eexists _, t. split; [exact Ht|].
  destruct (best_move_value_spec (root_value depth b) (turn b) (legal_moves b) None
              (if turn b then NegInf else PosInf))
    as [[Hr Hall] | (i & m & Hi & Hr & _)]; rewrite Hr.
  - assert (Hnil : legal_moves b = []).
    { destruct (legal_moves b) as [|m0 rest]; [reflexivity|].
      specialize (Hall m0 (or_introl eq_refl)).
      change (if turn b then NegInf else PosInf) with (sentinel (turn b)) in Hall.
      rewrite (better_than_sentinel (turn b) (root_value depth b m0)
                 (minimax_value_finite OVER _ _ _ _ _)) in Hall.
      discriminate. }
    repeat split; auto. intros H. contradiction.
  - assert (Hin : In m (legal_moves b)) by (eapply nth_error_In; eassumption).
    repeat split.
    + discriminate.
    + intros Hnil. rewrite Hnil in Hin. destruct Hin.
    + intros _. now exists m.
Qed.

Lemma get_best_move_none_iff_no_moves_witness :
  exists (r : option nat) t,
    get_best_move (E := toy true) 2 2 (at_root hanging_queen WHITE)
      = Some (r, at_root hanging_queen WHITE, t) /\
    (r = None <->
     legal_moves (Engine := toy true) (at_root hanging_queen WHITE) = []) /\
    (legal_moves (Engine := toy true) (at_root hanging_queen WHITE) <> [] ->
     exists m, r = Some m /\
               In m (legal_moves (Engine := toy true) (at_root hanging_queen WHITE))).
Proof.
  apply (get_best_move_none_iff_no_moves (toy true) (toy_pop_undoes_push true)
           toy_no_moves_is_game_over 2 2 (at_root hanging_queen WHITE));
    [lia | simpl; lia].
Defined.

(** ** The flag get_best_move passes to the child *)

(** [not board.turn] is read after [board.push(move)]: on an engine whose
    push hands the turn to the other side, the flag of the child call is the
    side that has just moved. *)
Lemma root_score_flag {E : Engine} (fuel : nat) (depth : Z) (b : Board) (move : Move) :
  push_passes_turn E ->
  root_score fuel depth b move
  = score_of (minimax fuel (depth - 1) NegInf PosInf (turn b) (push b move)).
Proof.
  intros H. unfold root_score, score_of. now rewrite H, negb_involutive.
Qed.

(** C1 (where the code departs from it): with White to move at the root of
    [hanging_queen] and depth 2, the score [get_best_move] gets for move 0
    is the one of the child searched with maximizing = true, 0, not the one
    with maximizing = false, -9; so it returns move 0, which leaves the queen
    to be taken, although move 1 loses only a pawn.  The child call does run
    at depth - 1 with the window (-infinity, +infinity). *)
Theorem get_best_move_child_flag :
  let b := at_root hanging_queen WHITE in
  turn (Engine := toy true) b = WHITE /\
  score_of (get_best_move (E := toy true) 2 2 b) = Some (Some 0%nat) /\
  root_score (E := toy true) 2 2 b 0%nat = Some (Fin 0) /\
  root_score (E := toy true) 2 2 b 1%nat = Some (Fin (-1)) /\
  score_of (minimax (E := toy true) 2 1 NegInf PosInf true (toy_push b 0)) = Some (Fin 0) /\
  score_of (minimax (E := toy true) 2 1 NegInf PosInf false (toy_push b 0)) = Some (Fin (-9)) /\
  score_of (minimax (E := toy true) 2 1 NegInf PosInf false (toy_push b 1)) = Some (Fin (-1)).
Proof.
  cbv zeta. repeat split; reflexivity.
Qed.

(** * Further properties of the code *)

(** ** evaluate_board and the material on the board *)

(** X1: exchanging the colours negates the score: if every kind has on the
    second board as many pieces of a colour as it has of the other colour on
    the first, the second board's score is minus the first's. *)
Theorem evaluate_board_mirror :
  forall (E : Engine) (b1 b2 : Board),
    (forall p c, length (pieces b2 p c) = length (pieces b1 p (negb c))) ->
    exists score : Z,
      evaluate_board b1 = Some (score, b1, []) /\
      evaluate_board b2 = Some (- score, b2, []).
Proof.
  intros E b1 b2 H. exists (evaluate_value b1). split; [apply evaluate_board_run|].
  rewrite evaluate_board_run. do 2 f_equal. f_equal.
  rewrite !evaluate_value_material. unfold material_balance, count_of_kind, WHITE, BLACK in *. cbn.
  rewrite !(H _ true), !(H _ false). cbn. lia.
Qed.

Lemma evaluate_board_mirror_witness :
  exists score : Z,
    evaluate_board (E := toy true) (at_root (leaf 1 2 0 3) WHITE)
      = Some (score, at_root (leaf 1 2 0 3) WHITE, []) /\
    evaluate_board (E := toy true) (at_root (leaf 0 3 1 2) BLACK)
      = Some (- score, at_root (leaf 0 3 1 2) BLACK, []).
Proof.
  apply (evaluate_board_mirror (toy true) (at_root (leaf 1 2 0 3) WHITE)
           (at_root (leaf 0 3 1 2) BLACK)).
  intros [] []; reflexivity.
Defined.

(** X2: the score depends only on how many pawns, knights, bishops, rooks
    and queens each side has; the kings and the squares the pieces stand on
    do not count. *)
Theorem evaluate_board_counts_only :
  forall (E : Engine) (b1 b2 : Board),
    (forall p c, p <> KING ->
                 length (pieces b1 p c) = length (pieces b2 p c)) ->
    exists score : Z,
      evaluate_board b1 = Some (score, b1, []) /\
      evaluate_board b2 = Some (score, b2, []).
Proof.
  intros E b1 b2 H. exists (evaluate_value b1). split; [apply evaluate_board_run|].
  rewrite evaluate_board_run. do 2 f_equal. f_equal.
  rewrite !evaluate_value_material. unfold material_balance, count_of_kind, WHITE, BLACK in *. cbn.
  rewrite !(H PAWN), !(H KNIGHT), !(H BISHOP), !(H ROOK), !(H QUEEN) by discriminate.
  lia.
Qed.

Lemma evaluate_board_counts_only_witness :
  let two_kings : GameTree :=
    Node (fun p c => match p with KING => [4%nat; 60%nat] | _ => material 1 2 0 3 p c end)
         false [] in
  exists score : Z,
    evaluate_board (E := toy true) (at_root (leaf 1 2 0 3) WHITE)
      = Some (score, at_root (leaf 1 2 0 3) WHITE, []) /\
    evaluate_board (E := toy true) (at_root two_kings WHITE)
      = Some (score, at_root two_kings WHITE, []).
Proof.
  intros two_kings.
  apply (evaluate_board_counts_only (toy true) (at_root (leaf 1 2 0 3) WHITE)
           (at_root two_kings WHITE)).
  intros [] [] H; try reflexivity; contradiction.
Defined.

(** X3: a side that has, kind by kind other than the king, as many pieces
    as the other gets the score 0. *)
Theorem evaluate_board_level_material :
  forall (E : Engine) (b : Board),
    (forall p, p <> KING ->
               length (pieces b p WHITE) = length (pieces b p BLACK)) ->
    evaluate_board b = Some (0, b, []).
Proof.
  intros E b H. rewrite evaluate_board_run. do 2 f_equal. f_equal.
  rewrite evaluate_value_material. unfold material_balance, count_of_kind, WHITE, BLACK in *. cbn.
  rewrite !(H PAWN), !(H KNIGHT), !(H BISHOP), !(H ROOK), !(H QUEEN) by discriminate.
  lia.
Qed.

Lemma evaluate_board_level_material_witness :
  evaluate_board (E := toy true) (at_root hanging_queen WHITE)
    = Some (0, at_root hanging_queen WHITE, []).
Proof.
  apply (evaluate_board_level_material (toy true) (at_root hanging_queen WHITE)).
  intros [] H; try reflexivity; contradiction.
Defined.

(** X4: taking one piece of kind [p] and colour [c] off the board, the rest
    staying as it is, moves the score by the value of the kind: down when the
    piece is White's, up when it is Black's (by 9 for a queen, by 0 for a
    king). *)
Theorem evaluate_board_capture :
  forall (E : Engine) (b1 b2 : Board) (p : PieceType) (c : Color),
    length (pieces b1 p c) = S (length (pieces b2 p c)) ->
    (forall q d, (q, d) <> (p, c) ->
                 length (pieces b1 q d) = length (pieces b2 q d)) ->
    exists score : Z,
      evaluate_board b1 = Some (score, b1, []) /\
      evaluate_board b2
        = Some (if c then score - point_value p else score + point_value p, b2, []).
Proof.
  intros E b1 b2 p c Hp Hq. exists (evaluate_value b1).
  split; [apply evaluate_board_run|].
  rewrite evaluate_board_run. do 2 f_equal. f_equal.
  rewrite !evaluate_value_material. unfold material_balance, count_of_kind, WHITE, BLACK in *. cbn.
  destruct p, c; cbn;
    repeat match goal with
      | |- context [length (pieces b1 ?q ?d)] =>
          first [ rewrite (Hq q d) by congruence | rewrite Hp ]
      end; lia.
Qed.

Lemma evaluate_board_capture_witness :
  exists score : Z,
    evaluate_board (E := toy true) (at_root (leaf 1 1 1 1) BLACK)
      = Some (score, at_root (leaf 1 1 1 1) BLACK, []) /\
    evaluate_board (E := toy true) (at_root (leaf 0 1 1 1) WHITE)
      = Some (score - 9, at_root (leaf 0 1 1 1) WHITE, []).
Proof.
  apply (evaluate_board_capture (toy true) (at_root (leaf 1 1 1 1) BLACK)
           (at_root (leaf 0 1 1 1) WHITE) QUEEN WHITE).
  - reflexivity.
  - intros [] [] H; try reflexivity; contradiction.
Defined.

(** X5: the score lies between minus nine times the number of Black's
    pieces and nine times the number of White's. *)
Theorem evaluate_board_bounds :
  forall (E : Engine) (b : Board),
    exists score : Z,
      evaluate_board b = Some (score, b, []) /\
      - 9 * men b BLACK <= score <= 9 * men b WHITE.
Proof.
  intros E b. exists (evaluate_value b). split; [apply evaluate_board_run|].
  rewrite evaluate_value_material.
  cbv [material_balance men count_of_kind fold_right map point_value WHITE BLACK].
  lia.
Qed.

(** ** minimax with any window *)

(** X6: on an engine whose pop undoes push, [minimax] called at depth >= 0
    with a window alpha < beta returns the plain minimax value when that
    value lies strictly inside the window; when the value is at most alpha
    it returns a score at most alpha that is no less than the value; when
    the value is at least beta it returns a score at least beta that is no
    more than the value. *)
Theorem minimax_window :
  forall (E : Engine),
    pop_undoes_push E ->
    forall (depth : Z) (alpha beta : Score) (m : bool) (b : Board) (fuel : nat),
      0 <= depth ->
      (Z.to_nat depth < fuel)%nat ->
      slt alpha beta = true ->
      exists r t,
        minimax fuel depth alpha beta m b = Some (r, b, t) /\
        (slt alpha (plain_minimax (Z.to_nat depth) b m) = true ->
         slt (plain_minimax (Z.to_nat depth) b m) beta = true ->
         r = plain_minimax (Z.to_nat depth) b m) /\
        (sle (plain_minimax (Z.to_nat depth) b m) alpha = true ->
         sle (plain_minimax (Z.to_nat depth) b m) r = true /\ sle r alpha = true) /\
        (sle beta (plain_minimax (Z.to_nat depth) b m) = true ->
         sle beta r = true /\ sle r (plain_minimax (Z.to_nat depth) b m) = true).
Proof.
  intros E LIFO depth alpha beta m b fuel Hd Hf Hw.
  destruct (minimax_run LIFO fuel depth alpha beta m b Hd Hf) as [t Ht].
  eexists _, t. split; [exact Ht|].
  pose proof (minimax_value_agrees (Z.to_nat depth) b alpha beta m Hw) as Ha.
  set (r := minimax_value (Z.to_nat depth) b alpha beta m) in *.
  set (v := plain_minimax (Z.to_nat depth) b m) in *.
  clearbody r v. clear Ht. score_order.
Qed.

Lemma minimax_window_witness :
  let b := at_root hanging_queen WHITE in
  exists r t,
    minimax (E := toy true) 3 2 (Fin (-5)) (Fin 5) true b = Some (r, b, t) /\
    (slt (Fin (-5)) (plain_minimax (E := toy true) (Z.to_nat 2) b true) = true ->
     slt (plain_minimax (E := toy true) (Z.to_nat 2) b true) (Fin 5) = true ->
     r = plain_minimax (E := toy true) (Z.to_nat 2) b true) /\
    (sle (plain_minimax (E := toy true) (Z.to_nat 2) b true) (Fin (-5)) = true ->
     sle (plain_minimax (E := toy true) (Z.to_nat 2) b true) r = true /\
     sle r (Fin (-5)) = true) /\
    (sle (Fin 5) (plain_minimax (E := toy true) (Z.to_nat 2) b true) = true ->
     sle (Fin 5) r = true /\
     sle r (plain_minimax (E := toy true) (Z.to_nat 2) b true) = true).
Proof.
  intros b.
  apply (minimax_window (toy true) (toy_pop_undoes_push true) 2 (Fin (-5)) (Fin 5)
           true b 3); [lia | simpl; lia | reflexivity].
Defined.

(** ** The score is the material of a position the search reached *)

Section Leaf.
Context {E : Engine}.
Hypothesis OVER : no_moves_is_game_over E.

Lemma max_value_pick (self : Board -> Score -> Score -> Score) (b : Board) :
  forall moves max_eval alpha beta,
    max_value self b moves max_eval alpha beta = max_eval \/
    exists m a k, In m moves /\
                  max_value self b moves max_eval alpha beta = self (push b m) a k.
Proof.
  induction moves as [|move rest IH]; intros max_eval alpha beta; simpl.
  - now left.
  - set (e := self (push b move) alpha beta).
    assert (Hm : smax max_eval e = max_eval \/ smax max_eval e = e)
      by (unfold smax; destruct (slt max_eval e); auto).
    destruct (sle beta (smax alpha e)).
    + destruct Hm as [-> | ->]; [now left|].
      right. exists move, alpha, beta. auto.
    + destruct (IH (smax max_eval e) (smax alpha e) beta)
        as [-> | (m & a & k & Hin & ->)].
      * destruct Hm as [-> | ->]; [now left|].
        right. exists move, alpha, beta. auto.
      * right. exists m, a, k. auto.
Qed.

Lemma min_value_pick (self : Board -> Score -> Score -> Score) (b : Board) :
  forall moves min_eval alpha beta,
    min_value self b moves min_eval alpha beta = min_eval \/
    exists m a k, In m moves /\
                  min_value self b moves min_eval alpha beta = self (push b m) a k.
Proof.
  induction moves as [|move rest IH]; intros min_eval alpha beta; simpl.
  - now left.
  - set (e := self (push b move) alpha beta).
    assert (Hm : smin min_eval e = min_eval \/ smin min_eval e = e)
      by (unfold smin; destruct (slt e min_eval); auto).
    destruct (sle (smin beta e) alpha).
    + destruct Hm as [-> | ->]; [now left|].
      right. exists move, alpha, beta. auto.
    + destruct (IH (smin min_eval e) alpha (smin beta e))
        as [-> | (m & a & k & Hin & ->)].
      * destruct Hm as [-> | ->]; [now left|].
        right. exists move, alpha, beta. auto.
      * right. exists m, a, k. auto.
Qed.

Lemma minimax_value_leaf (d : nat) :
  forall b alpha beta m,
  exists path,
    legal_path b path /\
    (length path <= d)%nat /\
    (length path = d \/ is_game_over (after_path b path) = true) /\
    minimax_value d b alpha beta m = Fin (evaluate_value (after_path b path)).
Proof.
  induction d as [|d IH]; intros b alpha beta m.
  - exists []. simpl. auto.
  - pose proof (minimax_value_finite OVER (S d) b alpha beta m) as Hfin.
    simpl in *. destruct (is_game_over b) eqn:Ho.
    + exists []. simpl. repeat split; auto; lia.
    + assert (Hstep : exists mv a k f,
                 In mv (legal_moves b) /\
                 (if m
                  then max_value (fun c a k => minimax_value d c a k false) b
                         (legal_moves b) NegInf alpha beta
                  else min_value (fun c a k => minimax_value d c a k true) b
                         (legal_moves b) PosInf alpha beta)
                 = minimax_value d (push b mv) a k f).
      { destruct m.
        - destruct (max_value_pick (fun c a k => minimax_value d c a k false) b
                      (legal_moves b) NegInf alpha beta)
            as [H | (mv & a & k & Hin & H)].
          + rewrite H in Hfin. discriminate.
          + exists mv, a, k, false. auto.
        - destruct (min_value_pick (fun c a k => minimax_value d c a k true) b
                      (legal_moves b) PosInf alpha beta)
            as [H | (mv & a & k & Hin & H)].
          + rewrite H in Hfin. discriminate.
          + exists mv, a, k, true. auto. }
      destruct Hstep as (mv & a & k & f & Hin & Hstep).
      destruct (IH (push b mv) a k f) as (path & Hlegal & Hlen & Hend & Hval).
      exists (mv :: path). simpl. repeat split; auto; try lia.
      * destruct Hend as [Hend | Hend]; [left; lia | now right].
      * destruct m; rewrite Hstep; exact Hval.
Qed.
End Leaf.

(** X7: on an engine whose pop undoes push and which flags every position
    without legal moves game-over, the score [minimax] returns at depth >= 0
    is never a sentinel: it is the material balance of a position reached
    from the given one by at most [depth] legal moves, none made from a
    game-over position, and that position is [depth] moves away or
    game-over. *)
Theorem minimax_returns_a_leaf :
  forall (E : Engine),
    pop_undoes_push E ->
    no_moves_is_game_over E ->
    forall (depth : Z) (alpha beta : Score) (m : bool) (b : Board) (fuel : nat),
      0 <= depth ->
      (Z.to_nat depth < fuel)%nat ->
      exists path t,
        minimax fuel depth alpha beta m b
          = Some (Fin (material_balance (after_path b path)), b, t) /\
        legal_path b path /\
        (length path <= Z.to_nat depth)%nat /\
        (length path = Z.to_nat depth \/ is_game_over (after_path b path) = true).
Proof.
  intros E LIFO OVER depth alpha beta m b fuel Hd Hf.
  destruct (minimax_run LIFO fuel depth alpha beta m b Hd Hf) as [t Ht].
  destruct (minimax_value_leaf OVER (Z.to_nat depth) b alpha beta m)
    as (path & Hlegal & Hlen & Hend & Hval).
  exists path, t. rewrite Ht, Hval, evaluate_value_material. auto.
Qed.

Lemma minimax_returns_a_leaf_witness :
  let b := at_root hanging_queen WHITE in
  exists path t,
    minimax (E := toy true) 3 2 NegInf PosInf true b
      = Some (Fin (material_balance (E := toy true) (after_path (E := toy true) b path)),
              b, t) /\
    legal_path (E := toy true) b path /\
    (length path <= Z.to_nat 2)%nat /\
    (length path = Z.to_nat 2 \/
     is_game_over (Engine := toy true) (after_path (E := toy true) b path) = true).
Proof.
  intros b.
  apply (minimax_returns_a_leaf (toy true) (toy_pop_undoes_push true)
           toy_no_moves_is_game_over 2 NegInf PosInf true b 3); [lia | simpl; lia].
Defined.

(** ** How many moves the search makes *)

Section Work.
Context {E : Engine}.
Variable k : nat.
Hypothesis BRANCH : forall b : Board, (length (legal_moves b) <= k)%nat.

Lemma max_loop_work (self : Score -> Score -> bool -> M Score) (n : nat) :
  (forall a w f, makes_at_most n (self a w f)) ->
  forall moves max_eval alpha beta,
    makes_at_most (length moves * S n) (max_loop self moves max_eval alpha beta).
Proof.
  intros Hself moves. induction moves as [|move rest IH];
    intros max_eval alpha beta b r b' t H; simpl in H.
  - injection H as <- <- <-. cbn. lia.
  - apply bind_inv in H. destruct H as ([] & b1 & t1 & t2 & Hpush & H & ->).
    injection Hpush as <- <-.
    apply bind_inv in H. destruct H as (eval & b2 & t3 & t4 & Hrec & H & ->).
    apply Hself in Hrec.
    apply bind_inv in H. destruct H as ([] & b3 & t5 & t6 & Hpop & H & ->).
    injection Hpop as <- <-.
    assert (Hrest : (pushes t6 <= length rest * S n)%nat).
    { destruct (sle beta (smax alpha eval)).
      - injection H as <- <- <-. cbn. lia.
      - now apply IH in H. }
    rewrite !pushes_app. cbn [length]. cbn in *. lia.
Qed.

Lemma min_loop_work (self : Score -> Score -> bool -> M Score) (n : nat) :
  (forall a w f, makes_at_most n (self a w f)) ->
  forall moves min_eval alpha beta,
    makes_at_most (length moves * S n) (min_loop self moves min_eval alpha beta).
Proof.
  intros Hself moves. induction moves as [|move rest IH];
    intros min_eval alpha beta b r b' t H; simpl in H.
  - injection H as <- <- <-. cbn. lia.
  - apply bind_inv in H. destruct H as ([] & b1 & t1 & t2 & Hpush & H & ->).
    injection Hpush as <- <-.
    apply bind_inv in H. destruct H as (eval & b2 & t3 & t4 & Hrec & H & ->).
    apply Hself in Hrec.
    apply bind_inv in H. destruct H as ([] & b3 & t5 & t6 & Hpop & H & ->).
    injection Hpop as <- <-.
    assert (Hrest : (pushes t6 <= length rest * S n)%nat).
    { destruct (sle (smin beta eval) alpha).
      - injection H as <- <- <-. cbn. lia.
      - now apply IH in H. }
    rewrite !pushes_app. cbn [length]. cbn in *. lia.
Qed.

Lemma minimax_work (fuel : nat) :
  forall depth alpha beta m,
    0 <= depth ->
    makes_at_most (tree_size k (Z.to_nat depth)) (minimax fuel depth alpha beta m).
Proof.
  induction fuel as [|fuel IH]; intros depth alpha beta m Hd b r b' t H;
    [discriminate|].
  destruct (Z.eq_dec depth 0) as [D | D]; [| destruct (is_game_over b) eqn:Ho].
  - rewrite minimax_stop in H by now left. injection H as <- <- <-. cbn. lia.
  - rewrite minimax_stop in H by now right. injection H as <- <- <-. cbn. lia.
  - rewrite minimax_step in H by assumption.
    replace (Z.to_nat depth) with (S (Z.to_nat (depth - 1))) by lia.
    cbn [tree_size]. pose proof (BRANCH b) as Hb.
    assert (Hself : forall a w f,
               makes_at_most (tree_size k (Z.to_nat (depth - 1)))
                 (minimax fuel (depth - 1) a w f))
      by (intros; apply IH; lia).
    assert (Hloop : forall t1 : list Event,
               (pushes t1 <= length (legal_moves b)
                             * S (tree_size k (Z.to_nat (depth - 1))))%nat ->
               (pushes (EvLegalMoves :: t1)
                <= k * S (tree_size k (Z.to_nat (depth - 1))))%nat).
    { intros t1 H1. change (pushes (EvLegalMoves :: t1)) with (pushes t1).
      eapply Nat.le_trans; [exact H1|]. now apply Nat.mul_le_mono_r. }
    destruct m.
    + destruct (max_loop _ _ _ _ _ b) as [[[r1 b1] t1]|] eqn:L; [|discriminate].
      injection H as <- <- <-. apply Hloop.
      exact (max_loop_work _ _ Hself _ _ _ _ _ _ _ _ L).
    + destruct (min_loop _ _ _ _ _ b) as [[[r1 b1] t1]|] eqn:L; [|discriminate].
      injection H as <- <- <-. apply Hloop.
      exact (min_loop_work _ _ Hself _ _ _ _ _ _ _ _ L).
Qed.

Lemma best_move_loop_work (fuel : nat) (depth : Z) :
  1 <= depth ->
  forall moves best_move best_value,
    makes_at_most (length moves * S (tree_size k (Z.to_nat (depth - 1))))
      (best_move_loop fuel depth moves best_move best_value).
Proof.
  intros Hd moves. induction moves as [|move rest IH];
    intros best_move best_value b r b' t H; simpl in H.
  - injection H as <- <- <-. cbn. lia.
  - apply bind_inv in H. destruct H as ([] & b1 & t1 & t2 & Hpush & H & ->).
    injection Hpush as <- <-.
    apply bind_inv in H. destruct H as (tn & b2 & t3 & t4 & Hturn & H & ->).
    injection Hturn as <- <- <-.
    apply bind_inv in H. destruct H as (v & b2 & t3 & t5 & Hrec & H & ->).
    apply minimax_work in Hrec; [|lia].
    apply bind_inv in H. destruct H as ([] & b3 & t6 & t7 & Hpop & H & ->).
    injection Hpop as <- <-.
    apply bind_inv in H. destruct H as (tn & b4 & t8 & t9 & Hturn & H & ->).
    injection Hturn as <- <- <-.
    assert (Hrest : (pushes t9 <= length rest * S (tree_size k (Z.to_nat (depth - 1))))%nat).
    { destruct (turn (pop b2) && slt best_value v).
      - now apply IH in H.
      - apply bind_inv in H. destruct H as (tn & b5 & t10 & t11 & Hturn & H & ->).
        injection Hturn as <- <- <-. simpl.
        destruct (negb (turn (pop b2)) && slt v best_value); now apply IH in H. }
    repeat (rewrite ?pushes_app; simpl). cbn in *. lia.
Qed.
End Work.

(** X8: where no position has more than [k] legal moves, a call of
    [minimax] at depth d >= 0 that returns has made at most
    k + k^2 + ... + k^d pushes, and a call of [get_best_move] at depth d >= 1
    at most as many. *)
Theorem search_work_bound :
  forall (E : Engine) (k : nat),
    (forall b : Board, (length (legal_moves b) <= k)%nat) ->
    forall (fuel : nat) (depth : Z) (b : Board),
      (0 <= depth ->
       forall alpha beta m r b' t,
         minimax fuel depth alpha beta m b = Some (r, b', t) ->
         (pushes t <= tree_size k (Z.to_nat depth))%nat) /\
      (1 <= depth ->
       forall r b' t,
         get_best_move fuel depth b = Some (r, b', t) ->
         (pushes t <= tree_size k (Z.to_nat depth))%nat).
Proof.
  intros E k BRANCH fuel depth b. split.
  - intros Hd alpha beta m r b' t H.
    exact (minimax_work k BRANCH fuel depth alpha beta m Hd _ _ _ _ H).
  - intros Hd r b' t H. unfold get_best_move in H.
    apply bind_inv in H. destruct H as (tn & b1 & t1 & t2 & Hturn & H & ->).
    injection Hturn as <- <- <-.
    apply bind_inv in H. destruct H as (ms & b1 & t1 & t3 & Hms & H & ->).
    injection Hms as <- <- <-.
    apply (best_move_loop_work k BRANCH fuel depth Hd) in H.
    replace (Z.to_nat depth) with (S (Z.to_nat (depth - 1))) by lia.
    cbn [tree_size]. simpl app. change (pushes (EvLegalMoves :: t3)) with (pushes t3).
    eapply Nat.le_trans; [exact H|]. apply Nat.mul_le_mono_r. apply BRANCH.
Qed.

Lemma search_work_bound_witness :
  exists r b' t,
    minimax (E := endless) 4 3 NegInf PosInf true tt = Some (r, b', t) /\
    (pushes t <= tree_size 1 (Z.to_nat 3))%nat.
Proof.
  assert (H : exists res, minimax (E := endless) 4 3 NegInf PosInf true tt = Some res)
    by (eexists; reflexivity).
  destruct H as [[[r b'] t] H]. exists r, b', t. split; [exact H|].
  apply (proj1 (search_work_bound endless 1 (fun _ => le_n 1) 4 3 tt)
           ltac:(lia) NegInf PosInf true r b' t H).
Defined.

(** ** The search never pops a move it has not pushed *)

Section Nesting.
Context {E : Engine}.

Lemma stack_height_app (t1 t2 : list Event) :
  forall n,
    stack_height n (t1 ++ t2) =
    match stack_height n t1 with
    | Some n' => stack_height n' t2
    | None => None
    end.
Proof.
  induction t1 as [|e t1 IH]; intros n; simpl; [reflexivity|].
  destruct e; [apply IH | apply IH | destruct n; [reflexivity | apply IH]].
Qed.

Lemma max_loop_nests (self : Score -> Score -> bool -> M Score) :
  (forall a k f, nests (self a k f)) ->
  forall moves max_eval alpha beta, nests (max_loop self moves max_eval alpha beta).
Proof.
  intros Hself moves. induction moves as [|move rest IH];
    intros max_eval alpha beta b r b' t H n; simpl in H.
  - injection H as <- <- <-. reflexivity.
  - apply bind_inv in H. destruct H as ([] & b1 & t1 & t2 & Hpush & H & ->).
    injection Hpush as <- <-.
    apply bind_inv in H. destruct H as (eval & b2 & t3 & t4 & Hrec & H & ->).
    apply bind_inv in H. destruct H as ([] & b3 & t5 & t6 & Hpop & H & ->).
    injection Hpop as <- <-.
    simpl. rewrite stack_height_app, (Hself _ _ _ _ _ _ _ Hrec). simpl.
    destruct (sle beta (smax alpha eval)).
    + injection H as <- <- <-. reflexivity.
    + exact (IH _ _ _ _ _ _ _ H n).
Qed.

Lemma min_loop_nests (self : Score -> Score -> bool -> M Score) :
  (forall a k f, nests (self a k f)) ->
  forall moves min_eval alpha beta, nests (min_loop self moves min_eval alpha beta).
Proof.
  intros Hself moves. induction moves as [|move rest IH];
    intros min_eval alpha beta b r b' t H n; simpl in H.
  - injection H as <- <- <-. reflexivity.
  - apply bind_inv in H. destruct H as ([] & b1 & t1 & t2 & Hpush & H & ->).
    injection Hpush as <- <-.
    apply bind_inv in H. destruct H as (eval & b2 & t3 & t4 & Hrec & H & ->).
    apply bind_inv in H. destruct H as ([] & b3 & t5 & t6 & Hpop & H & ->).
    injection Hpop as <- <-.
    simpl. rewrite stack_height_app, (Hself _ _ _ _ _ _ _ Hrec). simpl.
    destruct (sle (smin beta eval) alpha).
    + injection H as <- <- <-. reflexivity.
    + exact (IH _ _ _ _ _ _ _ H n).
Qed.

Lemma minimax_nests (fuel : nat) :
  forall depth alpha beta m, nests (minimax fuel depth alpha beta m).
Proof.
  induction fuel as [|fuel IH]; intros depth alpha beta m b r b' t H n;
    [discriminate|].
  destruct (Z.eq_dec depth 0) as [D | D]; [| destruct (is_game_over b) eqn:Ho].
  - rewrite minimax_stop in H by now left. injection H as <- <- <-. reflexivity.
  - rewrite minimax_stop in H by now right. injection H as <- <- <-. reflexivity.
  - rewrite minimax_step in H by assumption. destruct m.
    + destruct (max_loop _ _ _ _ _ b) as [[[r1 b1] t1]|] eqn:L; [|discriminate].
      injection H as <- <- <-. simpl.
      exact (max_loop_nests _ (IH (depth - 1)) _ _ _ _ _ _ _ _ L n).
    + destruct (min_loop _ _ _ _ _ b) as [[[r1 b1] t1]|] eqn:L; [|discriminate].
      injection H as <- <- <-. simpl.
      exact (min_loop_nests _ (IH (depth - 1)) _ _ _ _ _ _ _ _ L n).
Qed.

Lemma best_move_loop_nests (fuel : nat) (depth : Z) (moves : list Move) :
  forall best_move best_value,
    nests (best_move_loop fuel depth moves best_move best_value).
Proof.
  induction moves as [|move rest IH]; intros best_move best_value b r b' t H n;
    simpl in H.
  - injection H as <- <- <-. reflexivity.
  - apply bind_inv in H. destruct H as ([] & b1 & t1 & t2 & Hpush & H & ->).
    injection Hpush as <- <-.
    apply bind_inv in H. destruct H as (tn & b2 & t3 & t4 & Hturn & H & ->).
    injection Hturn as <- <- <-.
    apply bind_inv in H. destruct H as (v & b2 & t3 & t5 & Hrec & H & ->).
    apply bind_inv in H. destruct H as ([] & b3 & t6 & t7 & Hpop & H & ->).
    injection Hpop as <- <-.
    apply bind_inv in H. destruct H as (tn & b4 & t8 & t9 & Hturn & H & ->).
    injection Hturn as <- <- <-.
    simpl. rewrite stack_height_app, (minimax_nests _ _ _ _ _ _ _ _ _ Hrec). simpl.
    destruct (turn (pop b2) && slt best_value v).
    + exact (IH _ _ _ _ _ _ H n).
    + apply bind_inv in H. destruct H as (tn & b5 & t10 & t11 & Hturn & H & ->).
      injection Hturn as <- <- <-. simpl.
      destruct (negb (turn (pop b2)) && slt v best_value); exact (IH _ _ _ _ _ _ H n).
Qed.
End Nesting.

(** X9: in every call of [minimax] or [get_best_move] that returns, pushes
    and pops are nested: read from the start, the calls never contain more
    pops than pushes, so the search never pops a move that was on the board
    before the call (not even from an empty move stack), and at the end the
    stack has the height it had. *)
Theorem search_never_pops_below :
  forall (E : Engine) (fuel : nat) (depth : Z) (b : Board) (n : nat),
    (forall alpha beta m r b' t,
        minimax fuel depth alpha beta m b = Some (r, b', t) ->
        stack_height n t = Some n /\
        forall t1 t2, t = t1 ++ t2 -> stack_height 0 t1 <> None) /\
    (forall r b' t,
        get_best_move fuel depth b = Some (r, b', t) ->
        stack_height n t = Some n /\
        forall t1 t2, t = t1 ++ t2 -> stack_height 0 t1 <> None).
Proof.
  intros E fuel depth b n.
  assert (Hprefix : forall t : list Event,
             stack_height 0 t = Some 0%nat ->
             forall t1 t2, t = t1 ++ t2 -> stack_height 0 t1 <> None).
  { intros t Ht t1 t2 -> Hnone. rewrite stack_height_app, Hnone in Ht. discriminate. }
  split.
  - intros alpha beta m r b' t H. split.
    + exact (minimax_nests fuel _ _ _ _ _ _ _ _ H n).
    + apply Hprefix. exact (minimax_nests fuel _ _ _ _ _ _ _ _ H 0%nat).
  - intros r b' t H.
    assert (Hn : forall n, stack_height n t = Some n).
    { unfold get_best_move in H.
      apply bind_inv in H. destruct H as (tn & b1 & t1 & t2 & Hturn & H & ->).
      injection Hturn as <- <- <-.
      apply bind_inv in H. destruct H as (ms & b1 & t1 & t3 & Hms & H & ->).
      injection Hms as <- <- <-. simpl.
      exact (best_move_loop_nests fuel depth _ _ _ _ _ _ _ H). }
    split; [apply Hn | apply Hprefix, Hn].
Qed.

Lemma search_never_pops_below_witness :
  let b := at_root hanging_queen WHITE in
  exists r b' t,
    minimax (E := toy true) 3 2 (Fin (-1)) (Fin 0) true b = Some (r, b', t) /\
    stack_height 0 t = Some 0%nat /\
    forall t1 t2, t = t1 ++ t2 -> stack_height 0 t1 <> None.
Proof.
  intros b.
  assert (H : exists res,
             minimax (E := toy true) 3 2 (Fin (-1)) (Fin 0) true b = Some res)
    by (eexists; reflexivity).
  destruct H as [[[r b'] t] H]. exists r, b', t. split; [exact H|].
  exact (proj1 (search_never_pops_below (toy true) 3 2 b 0)
           (Fin (-1)) (Fin 0) true r b' t H).
Defined.

(** ** get_best_move at depth 1, and what it scores at greater depths *)

(** X10: on an engine whose pop undoes push, [get_best_move] at depth 1
    looks one move ahead: it returns a legal move after which the material
    balance is as high as after any legal move when White is to move, as low
    when Black is; it returns no move only when there is no legal move. *)
Theorem get_best_move_depth_1 :
  forall (E : Engine),
    pop_undoes_push E ->
    forall (fuel : nat) (b : Board),
      (1 <= fuel)%nat ->
      exists r t,
        get_best_move fuel 1 b = Some (r, b, t) /\
        match r with
        | Some m =>
            In m (legal_moves b) /\
            forall m', In m' (legal_moves b) ->
              if turn b
              then material_balance (push b m') <= material_balance (push b m)
              else material_balance (push b m) <= material_balance (push b m')
        | None => legal_moves b = []
        end.
Proof.
  intros E LIFO fuel b Hf.
  destruct (get_best_move_run LIFO fuel 1 b ltac:(lia) ltac:(simpl; lia)) as [t Ht].
  eexists _, t. split; [exact Ht|].
  assert (Hv : forall m, root_value 1 b m = Fin (material_balance (push b m))).
  { intros m. unfold root_value. simpl. now rewrite evaluate_value_material. }
  destruct (best_move_value_spec (root_value 1 b) (turn b) (legal_moves b) None
              (if turn b then NegInf else PosInf))
    as [[-> Hall] | (i & m & Hi & -> & Hb & Hmax & Hbefore)].
  - destruct (legal_moves b) as [|m0 rest]; [reflexivity|].
    specialize (Hall m0 (or_introl eq_refl)). rewrite Hv in Hall.
    destruct (turn b); discriminate.
  - split; [eapply nth_error_In; eassumption|].
    intros m' Hin. apply In_nth_error in Hin. destruct Hin as [j Hj].
    specialize (Hmax j m' Hj). rewrite !Hv in Hmax. unfold better in Hmax.
    destruct (turn b); simpl in Hmax; apply Z.ltb_ge in Hmax; exact Hmax.
Qed.

Lemma get_best_move_depth_1_witness :
  let b := at_root hanging_queen WHITE in
  exists (r : option nat) t,
    get_best_move (E := toy true) 1 1 b = Some (r, b, t) /\
    match r with
    | Some m =>
        In m (legal_moves (Engine := toy true) b) /\
        forall m', In m' (legal_moves (Engine := toy true) b) ->
          if turn (Engine := toy true) b
          then material_balance (E := toy true) (toy_push b m')
               <= material_balance (E := toy true) (toy_push b m)
          else material_balance (E := toy true) (toy_push b m)
               <= material_balance (E := toy true) (toy_push b m')
    | None => legal_moves (Engine := toy true) b = []
    end.
Proof.
  intros b.
  apply (get_best_move_depth_1 (toy true) (toy_pop_undoes_push true) 1 b). lia.
Defined.

(** X11: on an engine whose pop undoes push and whose push passes the turn,
    the score [get_best_move] compares for a root move at depth >= 1 is the
    plain minimax value, at depth - 1, of the position after the move with
    the side that has just moved as the maximizing flag: after a move of
    White the reply is searched as a maximizing node, after a move of Black
    as a minimizing one. *)
Theorem root_score_is_plain_minimax_of_mover :
  forall (E : Engine),
    pop_undoes_push E ->
    push_passes_turn E ->
    forall (depth : Z) (fuel : nat) (b : Board) (move : Move),
      1 <= depth ->
      (Z.to_nat depth <= fuel)%nat ->
      root_score fuel depth b move
      = Some (plain_minimax (Z.to_nat (depth - 1)) (push b move) (turn b)).
Proof.
  intros E LIFO TURN depth fuel b move Hd Hf.
  rewrite (root_score_run LIFO fuel depth b move Hd Hf). f_equal.
  unfold root_value. rewrite TURN, negb_involutive.
  apply agrees_full_window. now apply minimax_value_agrees.
Qed.

Lemma root_score_is_plain_minimax_of_mover_witness :
  root_score (E := toy true) 2 2 (at_root hanging_queen WHITE) 0%nat
  = Some (plain_minimax (E := toy true) (Z.to_nat (2 - 1))
            (toy_push (at_root hanging_queen WHITE) 0) true).
Proof.
  apply (root_score_is_plain_minimax_of_mover (toy true) (toy_pop_undoes_push true)
           (toy_push_passes_turn true) 2 2 (at_root hanging_queen WHITE) 0%nat);
    [lia | simpl; lia].
Defined.

(** ** A window that is empty from the start *)

(** X12: called with beta <= alpha on a position that is not game-over, at a
    depth other than 0, [minimax] makes the first legal move only: it returns
    the score of that move's subtree, whatever the flag, after one push, the
    calls of the subtree and one pop. *)
Theorem minimax_empty_window :
  forall (E : Engine) (fuel : nat) (depth : Z) (alpha beta : Score) (m : bool)
         (b : Board) (move : Move) (rest : list Move)
         (eval : Score) (c : Board) (t : list Event),
    sle beta alpha = true ->
    depth <> 0 ->
    is_game_over b = false ->
    legal_moves b = move :: rest ->
    minimax fuel (depth - 1) alpha beta (negb m) (push b move) = Some (eval, c, t) ->
    minimax (S fuel) depth alpha beta m b
    = Some (eval, pop c, EvLegalMoves :: EvPush move :: t ++ [EvPop]).
Proof.
  intros E fuel depth alpha beta m b move rest eval c t Hw Hd Ho Hm Hrec.
  rewrite minimax_step by assumption. rewrite Hm.
  destruct m; simpl in Hrec; simpl; run_board; rewrite Hrec.
  - assert (Hcut : sle beta (smax alpha eval) = true) by (clear Hrec; score_order).
    rewrite Hcut. simpl.
    replace (smax NegInf eval) with eval by (now destruct eval). reflexivity.
  - assert (Hcut : sle (smin beta eval) alpha = true) by (clear Hrec; score_order).
    rewrite Hcut. simpl.
    replace (smin PosInf eval) with eval by (now destruct eval). reflexivity.
Qed.

Lemma minimax_empty_window_witness :
  let b := at_root hanging_queen WHITE in
  minimax (E := toy true) 3 2 (Fin 4) (Fin 4) true b
  = Some (Fin (-9), toy_pop (toy_push b 0),
          EvLegalMoves :: @EvPush (toy true) 0%nat
            :: [EvLegalMoves; @EvPush (toy true) 0%nat; EvPop] ++ [EvPop]).
Proof.
  intros b.
  apply (minimax_empty_window (toy true) 2 2 (Fin 4) (Fin 4) true b 0%nat [1%nat]
           (Fin (-9)) (toy_push b 0)
           [EvLegalMoves; @EvPush (toy true) 0%nat; EvPop]);
    reflexivity || discriminate.
Defined.

(** * ChessGUI *)

(** ** From the pixel to the file and the rank *)

(** X13: a click falls in file f exactly when its x lies in the f-th
    column of 50 pixels, and in rank r exactly when its y lies in the row of
    50 pixels that is r rows above the bottom one; file and rank are both
    between 0 and 7 exactly when the click is inside the 400 x 400 canvas. *)
Theorem click_cell :
  forall x y f r : Z,
    (click_col x = f <-> 50 * f <= x < 50 * f + 50) /\
    (click_row y = r <-> 50 * (7 - r) <= y < 50 * (7 - r) + 50) /\
    ((0 <= x < 400 /\ 0 <= y < 400) <->
     (0 <= click_col x <= 7 /\ 0 <= click_row y <= 7)).
Proof.
  intros x y f r. unfold click_col, click_row, square_size.
  change (400 / 8) with 50. repeat split; intros; Z.div_mod_to_equations; lia.
Qed.

(** ** play_ai_turn *)

Section AiTurn.
Context {E : Engine} {U : Gui}.

Lemma canvas_app (t1 t2 : list GuiEvent) :
  forall shown, canvas shown (t1 ++ t2) = canvas (canvas shown t1) t2.
Proof.
  induction t1 as [|e t1 IH]; intros shown; simpl; [reflexivity|].
  destruct e; apply IH.
Qed.

Lemma canvas_on_board (t : list Event) (shown : Board) :
  canvas shown (map OnBoard t) = shown.
Proof. induction t as [|e t IH]; simpl; [reflexivity | exact IH]. Qed.

Lemma play_ai_turn_over (fuel : nat) (s : GuiState) :
  is_game_over (gui_board s) = true ->
  play_ai_turn fuel s = Returned tt s [ShowGameOver].
Proof.
  intros H. destruct s as [b sel]. simpl in H.
  unfold play_ai_turn, gbind, on_board, board_is_game_over, show_game_over.
  simpl. rewrite H. reflexivity.
Qed.

(** What [play_ai_turn] does on a board that is not game-over, from the
    result of the search. *)
Lemma play_ai_turn_search (fuel : nat) (b : Board) (sel : option Z) :
  is_game_over b = false ->
  play_ai_turn fuel {| gui_board := b; selected_square := sel |} =
  match get_best_move fuel 3 b with
  | None => OutOfFuel
  | Some (move, b1, t) =>
      let b2 := match move with
                | Some m => if move_bool m then push b1 m else b1
                | None => b1
                end in
      Returned tt {| gui_board := b2; selected_square := sel |}
        (map OnBoard t
         ++ match move with
            | Some m => if move_bool m then [OnBoard (EvPush m)] else []
            | None => []
            end
         ++ [UpdateBoard b2])
  end.
Proof.
  intros H.
  unfold play_ai_turn, gbind, on_board, board_is_game_over, update_board, gret,
    board_push.
  cbn -[get_best_move]. rewrite H. cbn -[get_best_move].
  destruct (get_best_move fuel 3 b) as [[[[m|] b1] t]|]; cbn; try reflexivity.
  destruct (move_bool m); reflexivity.
Qed.

Lemma play_ai_turn_keeps (fuel : nat) (s s' : GuiState) (t : list GuiEvent) :
  play_ai_turn fuel s = Returned tt s' t ->
  selected_square s' = selected_square s /\
  canvas (gui_board s) t = gui_board s'.
Proof.
  destruct s as [b sel]. destruct (is_game_over b) eqn:Ho.
  - rewrite play_ai_turn_over by exact Ho. intros H. injection H as <- <-. now split.
  - rewrite play_ai_turn_search by exact Ho.
    destruct (get_best_move fuel 3 b) as [[[move b1] t1]|]; [|discriminate].
    cbv zeta. intros H. injection H as <- <-. split; [reflexivity|].
    rewrite !canvas_app, canvas_on_board. simpl.
    destruct move as [m|]; [destruct (move_bool m)|]; reflexivity.
Qed.


Lemma best_move_value_some (value : Move -> Score) (white : bool)
    (moves : list Move) :
  (forall m, is_finite (value m) = true) ->
  moves <> [] ->
  exists m, In m moves /\
            best_move_value value white moves None (sentinel white) = Some m.
Proof.
  intros Hfin Hne.
  destruct (best_move_value_spec value white moves None (sentinel white))
    as [[_ Hall] | (i & m & Hi & Hr & _)].
  - destruct moves as [|m0 rest]; [contradiction|].
    specialize (Hall m0 (or_introl eq_refl)).
    rewrite (better_than_sentinel white (value m0) (Hfin m0)) in Hall. discriminate.
  - exists m. split; [eapply nth_error_In; eassumption | exact Hr].
Qed.
End AiTurn.

(** X14: on a board that is game-over, [play_ai_turn] starts no search and
    makes no move: it leaves the board and the selection as they are and
    only calls [show_game_over]. *)
Theorem play_ai_turn_game_over :
  forall (E : Engine) (U : Gui) (fuel : nat) (s : GuiState),
    is_game_over (gui_board s) = true ->
    play_ai_turn fuel s = Returned tt s [ShowGameOver].
Proof. intros E U fuel s H. now apply play_ai_turn_over. Qed.

Lemma play_ai_turn_game_over_witness :
  let s := @Build_GuiState (toy true)
             (at_root (Node (material 0 1 1 1) true [leaf 0 1 1 0]) BLACK) None in
  play_ai_turn (E := toy true) (U := toy_gui true) 0 s = Returned tt s [ShowGameOver].
Proof.
  intros s. apply (play_ai_turn_game_over (toy true) (toy_gui true) 0 s). reflexivity.
Defined.

(** X15: on a board that is not game-over, on an engine whose pop undoes
    push, which flags every position without legal moves game-over and whose
    legal moves are true as conditions, [play_ai_turn] plays exactly one
    move: the one [get_best_move] returns at depth 3, a legal move of the
    board; it keeps the selection and ends by rendering the new board. *)
Theorem play_ai_turn_plays_best_move :
  forall (E : Engine) (U : Gui),
    pop_undoes_push E ->
    no_moves_is_game_over E ->
    legal_moves_are_true U ->
    forall (fuel : nat) (b : Board) (sel : option Z),
      (3 <= fuel)%nat ->
      is_game_over b = false ->
      exists m t,
        In m (legal_moves b) /\
        get_best_move fuel 3 b = Some (Some m, b, t) /\
        play_ai_turn fuel {| gui_board := b; selected_square := sel |}
        = Returned tt {| gui_board := push b m; selected_square := sel |}
            (map OnBoard t ++ [OnBoard (EvPush m); UpdateBoard (push b m)]).
Proof.
  intros E U LIFO OVER TRUE fuel b sel Hf Ho.
  destruct (get_best_move_run LIFO fuel 3 b ltac:(lia) ltac:(simpl; lia)) as [t Ht].
  assert (Hne : legal_moves b <> []).
  { intros H. apply OVER in H. congruence. }
  destruct (best_move_value_some (root_value 3 b) (turn b) (legal_moves b)
              (fun m => minimax_value_finite OVER _ _ _ _ _) Hne) as (m & Hin & Hm).
  unfold sentinel in Hm. rewrite Hm in Ht.
  exists m, t. split; [exact Hin|]. split; [exact Ht|].
  rewrite play_ai_turn_search by assumption. rewrite Ht.
  cbn. rewrite (TRUE b m Hin). reflexivity.
Qed.

Lemma toy_legal_moves_are_true (strict : bool) : legal_moves_are_true (toy_gui strict).
Proof. intros b m H. reflexivity. Qed.

Lemma play_ai_turn_plays_best_move_witness :
  let b := at_root hanging_queen BLACK in
  exists (m : nat) t,
    In m (legal_moves (Engine := toy true) b) /\
    get_best_move (E := toy true) 3 3 b = Some (Some m, b, t) /\
    play_ai_turn (E := toy true) (U := toy_gui true) 3
      (@Build_GuiState (toy true) b (Some 5))
    = Returned tt (@Build_GuiState (toy true) (toy_push b m) (Some 5))
        (map (@OnBoard (toy true)) t
         ++ [@OnBoard (toy true) (@EvPush (toy true) m);
             @UpdateBoard (toy true) (toy_push b m)]).
Proof.
  intros b.
  apply (play_ai_turn_plays_best_move (toy true) (toy_gui true)
           (toy_pop_undoes_push true) toy_no_moves_is_game_over
           (toy_legal_moves_are_true true) 3 b (Some 5)); [lia | reflexivity].
Defined.

(** ** on_click *)

Section Click.
Context {E : Engine} {U : Gui}.
Variable fuel : nat.
Variable x : Z.
Variable y : Z.

Lemma on_click_no_name (s : GuiState) :
  square_name (square (click_col x) (click_row y)) = None ->
  on_click fuel x y s = Raised s [].
Proof.
  intros H. unfold on_click, gbind, print_square. now rewrite H.
Qed.

Lemma on_click_nothing_selected (b : Board) (name : String.string) :
  square_name (square (click_col x) (click_row y)) = Some name ->
  on_click fuel x y {| gui_board := b; selected_square := None |} =
  match piece_at b (square (click_col x) (click_row y)) with
  | Some (_, true) =>
      Returned tt {| gui_board := b;
                     selected_square := Some (square (click_col x) (click_row y)) |}
        [Printed (ClickedOn name); Printed (SelectedSquare name); UpdateBoard b]
  | _ =>
      Returned tt {| gui_board := b; selected_square := None |}
        [Printed (ClickedOn name)]
  end.
Proof.
  intros H.
  unfold on_click, gbind, print_square, get_selected_square, gui_piece_at,
    set_selected_square, update_board, gret. rewrite H.
  cbn -[click_col click_row].
  destruct (piece_at b (square (click_col x) (click_row y))) as [[p []]|];
    cbn -[click_col click_row]; rewrite ?H; reflexivity.
Qed.

Lemma on_click_invalid (from : Z) (b : Board) (name : String.string) :
  square_name (square (click_col x) (click_row y)) = Some name ->
  contains b (move_from_to from (square (click_col x) (click_row y))) = false ->
  on_click fuel x y {| gui_board := b; selected_square := Some from |} =
  Returned tt {| gui_board := b; selected_square := None |}
    [Printed (ClickedOn name); Printed InvalidMove; UpdateBoard b].
Proof.
  intros H C.
  unfold on_click, gbind, print, print_square, get_selected_square, gui_contains,
    set_selected_square, update_board. rewrite H.
  cbn -[play_ai_turn click_col click_row]. rewrite C. reflexivity.
Qed.

Lemma on_click_legal (from : Z) (b : Board) (name : String.string) :
  square_name (square (click_col x) (click_row y)) = Some name ->
  contains b (move_from_to from (square (click_col x) (click_row y))) = true ->
  on_click fuel x y {| gui_board := b; selected_square := Some from |} =
  let move := move_from_to from (square (click_col x) (click_row y)) in
  let made := [Printed (ClickedOn name); OnBoard (EvPush move);
               UpdateBoard (push b move)] in
  match play_ai_turn fuel {| gui_board := push b move; selected_square := None |} with
  | Returned r s' t => Returned r s' (made ++ t)
  | OutOfFuel => OutOfFuel
  | Raised s' t => Raised s' (made ++ t)
  end.
Proof.
  intros H C.
  unfold on_click, gbind, print_square, get_selected_square, gui_contains,
    set_selected_square, update_board, on_board, board_push. rewrite H.
  cbn -[play_ai_turn click_col click_row]. rewrite C.
  cbn -[play_ai_turn click_col click_row].
  destruct (play_ai_turn fuel _) as [r s' t| |s' t]; reflexivity.
Qed.
End Click.

(** X16: a click that returns and found nothing selected has not changed
    the board, and has selected the square clicked exactly when a White piece
    stands on it; a click that returns and found a square selected has
    cleared the selection, and when the move from the selected square to the
    square clicked is not among the legal moves it has left the board as it
    was, printed the invalid-move message and rendered. *)
Theorem on_click_protocol :
  forall (E : Engine) (U : Gui) (fuel : nat) (x y : Z) (s s' : GuiState)
         (t : list GuiEvent),
    on_click fuel x y s = Returned tt s' t ->
    match selected_square s with
    | None =>
        gui_board s' = gui_board s /\
        selected_square s' =
          match piece_at (gui_board s) (square (click_col x) (click_row y)) with
          | Some (_, true) => Some (square (click_col x) (click_row y))
          | _ => None
          end
    | Some from =>
        selected_square s' = None /\
        (contains (gui_board s)
           (move_from_to from (square (click_col x) (click_row y))) = false ->
         gui_board s' = gui_board s /\
         exists name,
           square_name (square (click_col x) (click_row y)) = Some name /\
           t = [Printed (ClickedOn name); Printed InvalidMove;
                UpdateBoard (gui_board s)])
    end.
Proof.
  intros E U fuel x y [b sel] s' t H.
  destruct (square_name (square (click_col x) (click_row y))) as [name|] eqn:N;
    [| rewrite on_click_no_name in H by exact N; discriminate].
  destruct sel as [from|]; simpl.
  - destruct (contains b (move_from_to from (square (click_col x) (click_row y))))
      eqn:C.
    + rewrite (on_click_legal fuel x y from b name N C) in H. cbv zeta in H.
      destruct (play_ai_turn fuel _) as [[] s1 t1| |s1 t1] eqn:P; try discriminate.
      injection H as <- <-. apply play_ai_turn_keeps in P.
      split; [exact (proj1 P) | discriminate].
    + rewrite (on_click_invalid fuel x y from b name N C) in H. injection H as <- <-.
      split; [reflexivity | intros _; split; [reflexivity | now exists name]].
  - rewrite (on_click_nothing_selected fuel x y b name N) in H.
    destruct (piece_at b (square (click_col x) (click_row y))) as [[p []]|];
      injection H as <- <-; now split.
Qed.

Lemma on_click_protocol_witness :
  let s := @Build_GuiState (toy true) (at_root hanging_queen WHITE) None in
  let s' := @Build_GuiState (toy true) (at_root hanging_queen WHITE) (Some 0) in
  gui_board s' = gui_board s /\
  selected_square s' =
    match piece_at (Gui := toy_gui true) (gui_board s)
            (square (Gui := toy_gui true) (click_col 10) (click_row 390)) with
    | Some (_, true) => Some (square (Gui := toy_gui true) (click_col 10) (click_row 390))
    | _ => None
    end.
Proof.
  intros s s'.
  assert (H : exists t, on_click (E := toy true) (U := toy_gui true) 0 10 390 s
                        = Returned tt s' t) by (eexists; reflexivity).
  destruct H as [t H].
  exact (on_click_protocol (toy true) (toy_gui true) 0 10 390 s s' t H).
Defined.

(** X17: on an engine whose pop undoes push, which flags every position
    without legal moves game-over and whose legal moves are true as
    conditions, a click on a named square that completes a legal move plays
    it and clears the selection; if the game is then over it only calls
    [show_game_over], and otherwise the program answers with exactly one
    legal move of the new position, so that, where push passes the turn, the
    side that was to move is to move again. *)
Theorem on_click_legal_move :
  forall (E : Engine) (U : Gui),
    pop_undoes_push E ->
    no_moves_is_game_over E ->
    legal_moves_are_true U ->
    forall (fuel : nat) (x y from : Z) (b : Board) (name : String.string),
      (3 <= fuel)%nat ->
      square_name (square (click_col x) (click_row y)) = Some name ->
      contains b (move_from_to from (square (click_col x) (click_row y))) = true ->
      let move := move_from_to from (square (click_col x) (click_row y)) in
      let b1 := push b move in
      if is_game_over b1 then
        on_click fuel x y {| gui_board := b; selected_square := Some from |}
        = Returned tt {| gui_board := b1; selected_square := None |}
            [Printed (ClickedOn name); OnBoard (EvPush move); UpdateBoard b1;
             ShowGameOver]
      else
        exists reply t,
          In reply (legal_moves b1) /\
          on_click fuel x y {| gui_board := b; selected_square := Some from |}
          = Returned tt {| gui_board := push b1 reply; selected_square := None |}
              ([Printed (ClickedOn name); OnBoard (EvPush move); UpdateBoard b1]
               ++ map OnBoard t
               ++ [OnBoard (EvPush reply); UpdateBoard (push b1 reply)]) /\
          (push_passes_turn E -> turn (push b1 reply) = turn b).
Proof.
  intros E U LIFO OVER TRUE fuel x y from b name Hf N C move b1.
  rewrite (on_click_legal fuel x y from b name N C). cbv zeta. fold move. fold b1.
  destruct (is_game_over b1) eqn:Ho.
  - rewrite play_ai_turn_over by exact Ho. reflexivity.
  - destruct (get_best_move_run LIFO fuel 3 b1 ltac:(lia) ltac:(simpl; lia)) as [t Ht].
    assert (Hne : legal_moves b1 <> []).
    { intros H. apply OVER in H. congruence. }
    destruct (best_move_value_some (root_value 3 b1) (turn b1) (legal_moves b1)
                (fun m => minimax_value_finite OVER _ _ _ _ _) Hne) as (m & Hin & Hm).
    unfold sentinel in Hm. rewrite Hm in Ht.
    exists m, t. split; [exact Hin|]. split.
    + rewrite play_ai_turn_search by exact Ho. rewrite Ht. cbn.
      rewrite (TRUE b1 m Hin). reflexivity.
    + intros TURN. unfold b1. rewrite !TURN. apply negb_involutive.
Qed.

Lemma on_click_legal_move_witness :
  let b := at_root hanging_queen WHITE in
  let b1 := toy_push b 1 in
  exists (reply : nat) t,
    In reply (legal_moves (Engine := toy true) b1) /\
    on_click (E := toy true) (U := toy_gui true) 3 60 390
      (@Build_GuiState (toy true) b (Some 0))
    = Returned tt (@Build_GuiState (toy true) (toy_push b1 reply) None)
        ([Printed (ClickedOn (String.String (Ascii.ascii_of_nat 98)
                                (String.String (Ascii.ascii_of_nat 49)
                                   String.EmptyString)));
          @OnBoard (toy true) (@EvPush (toy true) 1%nat);
          @UpdateBoard (toy true) b1]
         ++ map (@OnBoard (toy true)) t
         ++ [@OnBoard (toy true) (@EvPush (toy true) reply);
             @UpdateBoard (toy true) (toy_push b1 reply)]) /\
    (push_passes_turn (toy true) ->
     turn (Engine := toy true) (toy_push b1 reply) = turn (Engine := toy true) b).
Proof.
  intros b b1.
  apply (on_click_legal_move (toy true) (toy_gui true) (toy_pop_undoes_push true)
           toy_no_moves_is_game_over (toy_legal_moves_are_true true) 3 60 390 0 b
           (String.String (Ascii.ascii_of_nat 98)
              (String.String (Ascii.ascii_of_nat 49) String.EmptyString)));
    [lia | reflexivity | reflexivity].
Defined.

(** X18: the canvas is never left stale by a click: if it showed the board
    before the click, then after any click that returns it shows the board as
    the click leaves it, after the player's move and the program's. *)
Theorem on_click_renders_the_board :
  forall (E : Engine) (U : Gui) (fuel : nat) (x y : Z) (s s' : GuiState)
         (t : list GuiEvent),
    on_click fuel x y s = Returned tt s' t ->
    canvas (gui_board s) t = gui_board s'.
Proof.
  intros E U fuel x y [b sel] s' t H.
  destruct (square_name (square (click_col x) (click_row y))) as [name|] eqn:N;
    [| rewrite on_click_no_name in H by exact N; discriminate].
  destruct sel as [from|]; simpl.
  - destruct (contains b (move_from_to from (square (click_col x) (click_row y))))
      eqn:C.
    + rewrite (on_click_legal fuel x y from b name N C) in H. cbv zeta in H.
      destruct (play_ai_turn fuel _) as [[] s1 t1| |s1 t1] eqn:P; try discriminate.
      injection H as <- <-. apply play_ai_turn_keeps in P.
      simpl. exact (proj2 P).
    + rewrite (on_click_invalid fuel x y from b name N C) in H.
      injection H as <- <-. reflexivity.
  - rewrite (on_click_nothing_selected fuel x y b name N) in H.
    destruct (piece_at b (square (click_col x) (click_row y))) as [[p []]|];
      injection H as <- <-; reflexivity.
Qed.

Lemma on_click_renders_the_board_witness :
  let s := @Build_GuiState (toy true) (at_root hanging_queen WHITE) (Some 0) in
  exists s' t,
    on_click (E := toy true) (U := toy_gui true) 3 60 390 s = Returned tt s' t /\
    canvas (gui_board s) t = gui_board s'.
Proof.
  intros s.
  assert (H : exists s' t,
             on_click (E := toy true) (U := toy_gui true) 3 60 390 s
             = Returned tt s' t) by (eexists; eexists; reflexivity).
  destruct H as (s' & t & H). exists s', t. split; [exact H|].
  exact (on_click_renders_the_board (toy true) (toy_gui true) 3 60 390 s s' t H).
Defined.


